(** * Intelligent-Traffic-Routing: the route engine of [ITR/backend/main.py]

    A shallow embedding of [Graph] (adjacency construction, weight policy,
    [dijkstra], [astar]) and of the [calculate_route] handler, followed by the
    properties of the search trace, of the returned path and of the error
    mapping.

    Modelling conventions.
    - A Python [float] that comes from the request (edge [distance] and
      [traffic], node coordinates) is an exact rational [Q]: rounding, NaN
      and infinite inputs are outside the model.  Numbers are compared by
      value ([Qeq], [Qlt]), as Python compares floats.
    - The cost table [distances] starts at [float('inf')]; its values are
      of type [float], a rational or [Inf].
    - A [dict] is a [gmap]; a missing key raises [KeyError].
    - The [set] named [visited] is kept as the list of its members in the
      order they were added.  Python does not iterate a set in insertion
      order: [list(visited)] is [set_iter visited], where [set_iter] is the
      iteration order of the interpreter's hash set, a parameter of the
      development.
    - [heapq] is a multiset from which [heappop] takes a least tuple.
    - [while] loops take fuel; [OutOfFuel] is the outcome of a loop that
      has not finished, and the theorems show that it does not occur. *)

From Stdlib Require Import QArith Lqa.
From stdpp Require Import base gmap list strings fin_maps.

Local Open Scope string_scope.
Local Open Scope list_scope.
Local Open Scope Q_scope.

(** ** Outcomes: a value, a Python exception, or a loop still running *)

Inductive exn : Type :=
  | KeyError (key : string)
  | HTTPException (status_code : nat) (detail : detail)
with detail : Type :=
  | Text (s : string)
  | str (e : exn).

Inductive outcome (A : Type) : Type :=
  | Return (a : A)
  | Raise (e : exn)
  | OutOfFuel.
Arguments Return {A} a.
Arguments Raise {A} e.
Arguments OutOfFuel {A}.

Global Instance outcome_bind : MBind outcome := fun A B f m =>
  match m with
  | Return a => f a
  | Raise e => Raise e
  | OutOfFuel => OutOfFuel
  end.

(** [d[k]] on a dict. *)
Definition getitem {V} (d : gmap string V) (k : string) : outcome V :=
  match d !! k with
  | Some v => Return v
  | None => Raise (KeyError k)
  end.

(** ** Numbers *)

Inductive float : Type :=
  | Fin (q : Q)
  | Inf.

Definition fadd (a : float) (w : Q) : float :=
  match a with
  | Fin q => Fin (q + w)
  | Inf => Inf
  end.

Definition Qltb (a b : Q) : bool := negb (Qle_bool b a).

Definition fltb (a b : float) : bool :=
  match a, b with
  | Fin p, Fin q => Qltb p q
  | Fin _, Inf => true
  | Inf, _ => false
  end.

Definition feqb (a b : float) : bool :=
  match a, b with
  | Fin p, Fin q => Qeq_bool p q
  | Inf, Inf => true
  | _, _ => false
  end.

(** [a <= b] on costs, [Inf] on top. *)
Definition fle (a b : float) : Prop :=
  match a, b with
  | Fin p, Fin q => p <= q
  | _, Inf => True
  | Inf, Fin _ => False
  end.

(** [v if v != float('inf') else 999999] *)
Definition sentinel : Q := 999999.

Definition render (v : float) : float :=
  match v with
  | Fin q => Fin q
  | Inf => Fin sentinel
  end.

(** [round(x, 2)]: to the nearest hundredth, ties to the even one. *)
Definition round2 (x : Q) : Q :=
  let n := (Qnum x * 100)%Z in
  let d := Z.pos (Qden x) in
  let z := (n / d)%Z in
  let r := (n mod d)%Z in
  let z' := match (2 * r ?= d)%Z with
            | Lt => z
            | Gt => (z + 1)%Z
            | Eq => if Z.even z then z else (z + 1)%Z
            end in
  Qred (z' # 100).

(** ** Data models *)

Record Edge : Type := mkEdge {
  from_ : string;
  to : string;
  distance : Q;
  traffic : Q
}.

Record NodePosition : Type := mkPos { x : Q; y : Q }.

Record RouteRequest : Type := mkRequest {
  nodes : list string;
  edges : list Edge;
  start : string;
  end_ : string;
  algorithm : string;
  weightType : string;
  nodePositions : gmap string NodePosition
}.

Record PathStep : Type := mkStep {
  current : string;
  visited : list string;
  distances : gmap string float;
  previous : gmap string string
}.

(** The body of the response of [calculate_route]. *)
Record RouteResult : Type := mkResult {
  success : bool;
  path : list string;
  steps : list PathStep;
  totalDistance : Q;
  totalTraffic : Q
}.

(** ** Graph *)

Definition adj_entry : Type := string * Q * Edge.

Definition _get_weight (weight_type : string) (edge : Edge) : Q :=
  if String.eqb weight_type "distance" then distance edge
  else if String.eqb weight_type "traffic" then traffic edge
  else distance edge + traffic edge * 2.

(** [adj[k].append(v)] *)
Definition append_at (adj : gmap string (list adj_entry)) (k : string)
    (v : adj_entry) : outcome (gmap string (list adj_entry)) :=
  l ← getitem adj k; Return (<[k := l ++ [v]]> adj).

Fixpoint add_edges (weight_type : string) (es : list Edge)
    (adj : gmap string (list adj_entry))
    : outcome (gmap string (list adj_entry)) :=
  match es with
  | [] => Return adj
  | edge :: rest =>
      let weight := _get_weight weight_type edge in
      adj ← append_at adj (from_ edge) (to edge, weight, edge);
      adj ← append_at adj (to edge) (from_ edge, weight, edge);
      add_edges weight_type rest adj
  end.

Definition _build_adjacency_list (nodes : list string) (edges : list Edge)
    (weight_type : string) : outcome (gmap string (list adj_entry)) :=
  let adj : gmap string (list adj_entry) :=
    list_to_map (map (fun node => (node, [])) nodes) in
  add_edges weight_type edges adj.

Record Graph : Type := mkGraph {
  g_nodes : list string;
  g_edges : list Edge;
  g_weight_type : string;
  adj_list : gmap string (list adj_entry)
}.

Definition Graph_init (nodes : list string) (edges : list Edge)
    (weight_type : string) : outcome Graph :=
  adj ← _build_adjacency_list nodes edges weight_type;
  Return (mkGraph nodes edges weight_type adj).

(** ** The search engine

    [dijkstra] and [astar] have the same body; they differ in the tuples
    kept in the heap.  [search] is that body, over the tuple type [key]:
    [key_ltb] is Python's [<] on the tuples, [node_of] the last component,
    [mk_key new_dist neighbor] the tuple pushed after a relaxation. *)

(** The local variables of a search. *)
Record locals (key : Type) : Type := mkLocals {
  l_distances : gmap string float;
  l_previous : gmap string string;
  l_visited : list string;
  l_steps : list PathStep;
  l_pq : list key
}.
Arguments mkLocals {key}.
Arguments l_distances {key}.
Arguments l_previous {key}.
Arguments l_visited {key}.
Arguments l_steps {key}.
Arguments l_pq {key}.

(** How an iteration of [while pq:] ends. *)
Inductive flow (key : Type) : Type :=
  | Continue (st : locals key)
  | Break (st : locals key).
Arguments Continue {key}.
Arguments Break {key}.

(** [while current: path.insert(0, current); current = previous.get(current)]
    stops on [None] and on the empty string, both false in Python. *)
Fixpoint reconstruct (fuel : nat) (previous : gmap string string)
    (current : option string) (path : list string) : outcome (list string) :=
  match current with
  | None => Return path
  | Some c =>
      if bool_decide (c = "") then Return path
      else match fuel with
           | O => OutOfFuel
           | S fuel' =>
               reconstruct fuel' previous (previous !! c) (c :: path)
           end
  end.

(** Iterations of [while pq:] are bounded by the entries ever pushed. *)
Definition search_fuel (adj : gmap string (list adj_entry)) : nat :=
  S (S (sum_list (map (fun p => S (length p.2)) (map_to_list adj)))).

Section Search.
(** Iteration order of the hash set behind [visited]. *)
Variable set_iter : list string -> list string.

Section Body.
Context {key : Type}.
Variable key_ltb : key -> key -> bool.
Variable node_of : key -> string.
Variable mk_key : float -> string -> outcome key.

(** [heapq.heappop]: a least tuple, and the others. *)
Fixpoint pop_min (k : key) (l : list key) : key * list key :=
  match l with
  | [] => (k, [])
  | k' :: l' =>
      if key_ltb k' k
      then let '(m, r) := pop_min k' l' in (m, k :: r)
      else let '(m, r) := pop_min k l' in (m, k' :: r)
  end.

Definition heappop (pq : list key) : option (key * list key) :=
  match pq with
  | [] => None
  | k :: l => Some (pop_min k l)
  end.

Definition heappush (pq : list key) (k : key) : list key := pq ++ [k].

(** One turn of [for neighbor, weight, edge in self.adj_list[current]]. *)
Definition relax (cur : string) (st : locals key) (entry : adj_entry)
    : outcome (locals key) :=
  let '(neighbor, weight, _) := entry in
  if bool_decide (neighbor ∈ l_visited st) then Return st
  else
    dc ← getitem (l_distances st) cur;
    let new_dist := fadd dc weight in
    dn ← getitem (l_distances st) neighbor;
    if fltb new_dist dn then
      k ← mk_key new_dist neighbor;
      Return (mkLocals (<[neighbor := new_dist]> (l_distances st))
                       (<[neighbor := cur]> (l_previous st))
                       (l_visited st) (l_steps st)
                       (heappush (l_pq st) k))
    else Return st.

Fixpoint relax_all (cur : string) (st : locals key)
    (entries : list adj_entry) : outcome (locals key) :=
  match entries with
  | [] => Return st
  | entry :: rest => st' ← relax cur st entry; relax_all cur st' rest
  end.

(** The step recorded when [cur] is settled. *)
Definition snapshot (cur : string) (visited : list string)
    (distances : gmap string float) (previous : gmap string string)
    : PathStep :=
  mkStep cur (set_iter visited) (render <$> distances) previous.

(** One iteration of [while pq:]. *)
Definition iteration (adj : gmap string (list adj_entry)) (end_ : string)
    (st : locals key) : outcome (flow key) :=
  match heappop (l_pq st) with
  | None => Return (Break st)
  | Some (k, pq) =>
      let cur := node_of k in
      if bool_decide (cur ∈ l_visited st) then
        Return (Continue (mkLocals (l_distances st) (l_previous st)
                                   (l_visited st) (l_steps st) pq))
      else
        let visited := l_visited st ++ [cur] in
        let steps :=
          l_steps st ++
          [snapshot cur visited (l_distances st) (l_previous st)] in
        let st := mkLocals (l_distances st) (l_previous st)
                           visited steps pq in
        if bool_decide (cur = end_) then Return (Break st)
        else
          entries ← getitem adj cur;
          st ← relax_all cur st entries;
          Return (Continue st)
  end.

Fixpoint while_pq (fuel : nat) (adj : gmap string (list adj_entry))
    (end_ : string) (st : locals key) : outcome (locals key) :=
  match fuel with
  | O => OutOfFuel
  | S fuel' =>
      fl ← iteration adj end_ st;
      match fl with
      | Break st' => Return st'
      | Continue st' => while_pq fuel' adj end_ st'
      end
  end.

Definition init_locals (nodes : list string) (start : string) (k0 : key)
    : locals key :=
  let distances : gmap string float :=
    list_to_map (map (fun node => (node, Inf)) nodes) in
  mkLocals (<[start := Fin 0]> distances) ∅ [] [] [k0].

(** [Reconstruct path] *)
Definition reconstruct_path (st : locals key) (start end_ : string)
    : outcome (list string) :=
  if bool_decide (is_Some (l_previous st !! end_) ∨ start = end_)
  then reconstruct (S (length (l_visited st))) (l_previous st)
                   (Some end_) []
  else Return [].

Definition search (g : Graph) (start end_ : string) (k0 : outcome key)
    : outcome (list string * list PathStep) :=
  k ← k0;
  st ← while_pq (search_fuel (adj_list g)) (adj_list g) end_
                 (init_locals (g_nodes g) start k);
  path ← reconstruct_path st start end_;
  Return (path, l_steps st).
End Body.

(** [<] on the tuples [(dist, node)]: the first components that differ
    decide. *)
Definition pair_ltb (a b : float * string) : bool :=
  if feqb a.1 b.1 then String.ltb a.2 b.2 else fltb a.1 b.1.

Definition dijkstra (g : Graph) (start end_ : string)
    : outcome (list string * list PathStep) :=
  search pair_ltb snd (fun new_dist neighbor => Return (new_dist, neighbor))
         g start end_ (Return (Fin 0, start)).

(** [math.sqrt] *)
Variable sqrt : Q -> Q.

Definition heuristic (node_positions : gmap string NodePosition)
    (end_ : string) (node_id : string) : outcome Q :=
  node_pos ← getitem node_positions node_id;
  end_pos ← getitem node_positions end_;
  Return (sqrt ((x end_pos - x node_pos) ^ 2 + (y end_pos - y node_pos) ^ 2)
          / 10).

(** [<] on the tuples [(f_score, dist, node)]. *)
Definition triple_ltb (a b : float * float * string) : bool :=
  if feqb a.1.1 b.1.1
  then (if feqb a.1.2 b.1.2 then String.ltb a.2 b.2 else fltb a.1.2 b.1.2)
  else fltb a.1.1 b.1.1.

Definition astar (g : Graph) (start end_ : string)
    (node_positions : gmap string NodePosition)
    : outcome (list string * list PathStep) :=
  search triple_ltb snd
         (fun new_dist neighbor =>
            h ← heuristic node_positions end_ neighbor;
            Return (fadd new_dist h, new_dist, neighbor))
         g start end_
         (h ← heuristic node_positions end_ start;
          Return (Fin h, Fin 0, start)).

(** ** The handler *)

Definition joins (edge : Edge) (a b : string) : bool :=
  bool_decide (from_ edge = a) && bool_decide (to edge = b)
  || bool_decide (to edge = a) && bool_decide (from_ edge = b).

(** [Calculate totals]: the first edge that joins each pair of
    consecutive nodes, if any, is added. *)
Fixpoint totals (edges : list Edge) (path : list string)
    (total_distance total_traffic : Q) : Q * Q :=
  match path with
  | a :: (b :: _) as rest =>
      match find (fun edge => joins edge a b) edges with
      | Some edge =>
          totals edges rest (total_distance + distance edge)
                 (total_traffic + traffic edge)
      | None => totals edges rest total_distance total_traffic
      end
  | _ => (total_distance, total_traffic)
  end.

(** [Run algorithm] *)
Definition run_algorithm (request : RouteRequest) (graph : Graph)
    : outcome (list string * list PathStep) :=
  if String.eqb (algorithm request) "dijkstra" then
    dijkstra graph (start request) (end_ request)
  else if String.eqb (algorithm request) "astar" then
    astar graph (start request) (end_ request) (nodePositions request)
  else Raise (HTTPException 400 (Text "Invalid algorithm")).

(** The [try] block. *)
Definition calculate_route_try (request : RouteRequest)
    : outcome RouteResult :=
  graph ← Graph_init (nodes request) (edges request) (weightType request);
  '(path, steps) ← run_algorithm request graph;
  match path with
  | [] => Return (mkResult false [] [] 0 0)
  | _ =>
      let '(total_distance, total_traffic) :=
        totals (edges request) path 0 0 in
      Return (mkResult true path steps
                       (round2 total_distance) (round2 total_traffic))
  end.

(** [except Exception as e: raise HTTPException(500, detail=str(e))];
    [HTTPException] is itself an [Exception]. *)
Definition calculate_route (request : RouteRequest)
    : outcome RouteResult :=
  match calculate_route_try request with
  | Return r => Return r
  | Raise e => Raise (HTTPException 500 (str e))
  | OutOfFuel => OutOfFuel
  end.
End Search.

(** ** Specification vocabulary *)

(** [edge] joins [u] to [v], in one of its two directions. *)
Definition links (edge : Edge) (u v : string) : Prop :=
  (from_ edge = u ∧ to edge = v) ∨ (to edge = u ∧ from_ edge = v).

(** [route edges weight_type p c]: [p] is a sequence of nodes in which
    every two consecutive nodes are joined by an edge of [edges], and [c]
    is the sum of the weights of these edges under the policy. *)
Inductive route (edges : list Edge) (weight_type : string)
    : list string -> Q -> Prop :=
  | route_one u : route edges weight_type [u] 0
  | route_cons u v p edge c :
      edge ∈ edges -> links edge u v ->
      route edges weight_type (v :: p) c ->
      route edges weight_type (u :: v :: p) (_get_weight weight_type edge + c).

(** [n] can be reached from [start] along edges. *)
Inductive reachable (edges : list Edge) (start : string) : string -> Prop :=
  | reach_start : reachable edges start start
  | reach_step u v edge :
      reachable edges start u -> edge ∈ edges -> links edge u v ->
      reachable edges start v.

(** The distance and the traffic of [edge] are not negative. *)
Definition nonneg_edge (edge : Edge) : bool :=
  Qle_bool 0 (distance edge) && Qle_bool 0 (traffic edge).

(** Every edge joins two declared nodes. *)
Definition known_endpoints (nodes : list string) (edge : Edge) : bool :=
  bool_decide (from_ edge ∈ nodes) && bool_decide (to edge ∈ nodes).

(** [(v, w, edge)] is in the neighbour list of [u]. *)
Definition has_entry (adj : gmap string (list adj_entry)) (u : string)
    (entry : adj_entry) : Prop :=
  ∃ l, adj !! u = Some l ∧ entry ∈ l.

(** ** Well-formed requests *)



(** ** Stages of the loop *)

(** The state after a popped tuple was discarded. *)
Definition skipped {key} (st : locals key) (pq : list key) : locals key :=
  mkLocals (l_distances st) (l_previous st) (l_visited st) (l_steps st) pq.

(** The state after [cur] was added to [visited] and its step recorded. *)
Definition settled {key} (set_iter : list string -> list string)
    (st : locals key) (cur : string) (pq : list key) : locals key :=
  mkLocals (l_distances st) (l_previous st) (l_visited st ++ [cur])
           (l_steps st ++
            [snapshot set_iter cur (l_visited st ++ [cur]) (l_distances st)
                      (l_previous st)])
           pq.

(** The state after a neighbour was given a better cost. *)
Definition improved {key} (st : locals key) (cur neighbor : string)
    (new_dist : float) (k : key) : locals key :=
  mkLocals (<[neighbor := new_dist]> (l_distances st))
           (<[neighbor := cur]> (l_previous st))
           (l_visited st) (l_steps st) (l_pq st ++ [k]).

(** The tables when [while pq:] was left, for a search that returned. *)
Definition final_state {key} (set_iter : list string -> list string)
    (key_ltb : key -> key -> bool) (node_of : key -> string)
    (mk_key : float -> string -> outcome key) (g : Graph)
    (start end_ : string) (k : key) (st : locals key) : Prop :=
  while_pq set_iter key_ltb node_of mk_key (search_fuel (adj_list g))
           (adj_list g) end_ (init_locals (g_nodes g) start k) = Return st.

(** A search run: the pair returned by [dijkstra] or by [astar]. *)
Definition search_run (set_iter : list string -> list string) (sqrt : Q -> Q)
    (g : Graph) (start end_ : string)
    (r : list string * list PathStep) : Prop :=
  dijkstra set_iter g start end_ = Return r ∨
  ∃ node_positions, astar set_iter sqrt g start end_ node_positions = Return r.

(** ** Invariants of the loop *)

(** What holds of the tables at the head of every iteration: [visited] has
    no repetition and is the list of the recorded nodes; [start] costs 0,
    has no predecessor and is the first node settled; every settled or queued node has been reached
    and has a finite cost; a predecessor is settled, was settled earlier,
    and the cost of a node is its predecessor's plus an entry's weight; a
    node never reached costs [Inf]. *)
Record sinv {key} (node_of : key -> string)
    (adj : gmap string (list adj_entry)) (start : string)
    (dom0 : gset string) (st : locals key) : Prop := mkSinv {
  s_nodup : NoDup (l_visited st);
  s_steps : map current (l_steps st) = l_visited st;
  s_start_dist : l_distances st !! start = Some (Fin 0);
  s_start_prev : l_previous st !! start = None;
  s_started : start ∈ l_visited st ∨
    (l_visited st = [] ∧ ∀ k, k ∈ l_pq st -> node_of k = start);
  s_vis : ∀ n, n ∈ l_visited st ->
    (n = start ∨ is_Some (l_previous st !! n)) ∧
    ∃ q, l_distances st !! n = Some (Fin q);
  s_pq : ∀ k, k ∈ l_pq st ->
    (node_of k = start ∨ is_Some (l_previous st !! node_of k)) ∧
    ∃ q, l_distances st !! node_of k = Some (Fin q);
  s_prev : ∀ n u, l_previous st !! n = Some u ->
    u ∈ l_visited st ∧
    ∃ du w e, l_distances st !! u = Some (Fin du) ∧
              has_entry adj u (n, w, e) ∧
              l_distances st !! n = Some (Fin (du + w));
  s_order : ∀ l1 n l2 u, l_visited st = l1 ++ n :: l2 ->
    l_previous st !! n = Some u -> u ∈ l1;
  s_unreached : ∀ n d, n ≠ start -> l_previous st !! n = None ->
    l_distances st !! n = Some d -> d = Inf;
  s_dom : dom (l_distances st) = dom0
}.

(** A node without a predecessor, other than [start], has not been
    reached when the step was recorded. *)
Definition unreached (start : string) (s : PathStep) (n : string) : Prop :=
  n ≠ start ∧ previous s !! n = None.

(** A step is well formed: it has a cost for every node of [dom0], its
    costs are finite numbers, [start] costs 0,
    a node not reached shows the sentinel, and a reached node shows its
    predecessor's cost plus the weight of an entry from it. *)
Definition snap_ok (adj : gmap string (list adj_entry)) (start : string)
    (dom0 : gset string) (s : PathStep) : Prop :=
  dom (distances s) = dom0 ∧
  (∀ n v, distances s !! n = Some v -> ∃ q, v = Fin q) ∧
  distances s !! start = Some (Fin 0) ∧
  (∀ n, unreached start s n -> is_Some (distances s !! n) ->
        distances s !! n = Some (Fin sentinel)) ∧
  (∀ n u, previous s !! n = Some u ->
     ∃ du w e, distances s !! u = Some (Fin du) ∧
               has_entry adj u (n, w, e) ∧
               distances s !! n = Some (Fin (du + w))).

(** The tables [dist] come after step [s], whose settled nodes were
    [vis]: a cost is not above the one recorded, unless the node was not
    reached then; the costs of the settled nodes are the recorded ones. *)
Definition follows (start : string) (vis : list string) (s : PathStep)
    (dist : gmap string float) : Prop :=
  (∀ n a, distances s !! n = Some (Fin a) ->
     ∃ d, dist !! n = Some d ∧ (fle d (Fin a) ∨ unreached start s n)) ∧
  (∀ n, n ∈ vis -> distances s !! n = render <$> (dist !! n)).

(** Step [s'] was recorded after step [s]. *)
Definition later (start : string) (vis : list string) (s s' : PathStep)
    : Prop :=
  (∀ n a, distances s !! n = Some (Fin a) ->
     ∃ b, distances s' !! n = Some (Fin b) ∧
          (b <= a ∨ unreached start s n)) ∧
  (∀ n, n ∈ vis -> distances s' !! n = distances s !! n).

Record tinv {key} (set_iter : list string -> list string)
    (adj : gmap string (list adj_entry)) (start : string)
    (dom0 : gset string) (st : locals key) : Prop := mkTinv {
  t_vis : ∀ i s, l_steps st !! i = Some s ->
    visited s = set_iter (take (S i) (l_visited st));
  t_ok : ∀ s, s ∈ l_steps st -> snap_ok adj start dom0 s;
  t_now : ∀ i s, l_steps st !! i = Some s ->
    follows start (take (S i) (l_visited st)) s (l_distances st);
  t_pair : ∀ i j s s', (i < j)%nat ->
    l_steps st !! i = Some s -> l_steps st !! j = Some s' ->
    later start (take (S i) (l_visited st)) s s'
}.

(** What the recorded steps of a run satisfy. *)
Definition trace_ok (set_iter : list string -> list string) (g : Graph)
    (start : string) (steps : list PathStep) : Prop :=
  NoDup (map current steps) ∧
  (∀ n, n ∈ map current steps -> n = start ∨ n ∈ g_nodes g) ∧
  (∀ i s, steps !! i = Some s ->
     visited s = set_iter (map current (take (S i) steps))) ∧
  (∀ s, s ∈ steps ->
     snap_ok (adj_list g) start ({[start]} ∪ list_to_set (g_nodes g)) s) ∧
  (∀ i j s s', (i < j)%nat -> steps !! i = Some s -> steps !! j = Some s' ->
     later start (map current (take (S i) steps)) s s').

(** Towards exhaustion: the settled nodes can be reached from [start];
    every neighbour of a settled node has a finite cost, apart from the
    entries of [cur] still to come after [done]; a node with a finite cost
    is settled or queued. *)
Record einv {key} (node_of : key -> string)
    (adj : gmap string (list adj_entry)) (edges : list Edge)
    (start : string) (cur : option string) (done : list adj_entry)
    (st : locals key) : Prop := mkEinv {
  e_reach : ∀ n, n ∈ l_visited st -> reachable edges start n;
  e_closed : ∀ u entry, u ∈ l_visited st -> has_entry adj u entry ->
    Some u ≠ cur ∨ entry ∈ done ->
    ∃ q, l_distances st !! entry.1.1 = Some (Fin q);
  e_front : ∀ n q, l_distances st !! n = Some (Fin q) ->
    n ∈ l_visited st ∨ ∃ k, k ∈ l_pq st ∧ node_of k = n
}.

(** [walk adj start v c]: the entries of [adj] lead from [start] to [v]
    along edges whose weights add up to [c]. *)
Inductive walk (adj : gmap string (list adj_entry)) (start : string)
    : string -> Q -> Prop :=
  | walk_start : walk adj start start 0
  | walk_step u v w e c :
      walk adj start u c -> has_entry adj u (v, w, e) ->
      walk adj start v (c + w).

(** The invariant of uniform-cost search.  The cost of a settled node is
    that of a cheapest walk to it; an entry out of a settled node has been
    relaxed, apart from the entries of [cur] still to come after [done];
    no queued tuple is cheaper than a settled node; a node reached and
    not settled has a tuple with its cost in the queue; a tuple is never
    cheaper than its node; no settled node costs more than [cur]. *)
Record oinv {key} (node_of : key -> string) (cost_of : key -> float)
    (adj : gmap string (list adj_entry)) (start : string)
    (cur : option string) (done : list adj_entry) (st : locals key)
    : Prop := mkOinv {
  o_settled : ∀ u du c, u ∈ l_visited st ->
    l_distances st !! u = Some (Fin du) -> walk adj start u c -> du <= c;
  o_relaxed : ∀ u v w e du, u ∈ l_visited st ->
    has_entry adj u (v, w, e) -> Some u ≠ cur ∨ (v, w, e) ∈ done ->
    l_distances st !! u = Some (Fin du) ->
    ∃ dv, l_distances st !! v = Some (Fin dv) ∧ dv <= du + w;
  o_front : ∀ u k du, u ∈ l_visited st -> k ∈ l_pq st ->
    l_distances st !! u = Some (Fin du) -> fle (Fin du) (cost_of k);
  o_key : ∀ n q, n ∉ l_visited st -> l_distances st !! n = Some (Fin q) ->
    ∃ k, k ∈ l_pq st ∧ node_of k = n ∧ cost_of k = Fin q;
  o_stale : ∀ k, k ∈ l_pq st ->
    ∃ d, l_distances st !! node_of k = Some d ∧ fle d (cost_of k);
  o_mono : ∀ c dc u du, cur = Some c ->
    l_distances st !! c = Some (Fin dc) -> u ∈ l_visited st ->
    l_distances st !! u = Some (Fin du) -> du <= dc
}.

(** ** Termination measure *)

(** Entries that the nodes not yet settled can still push. *)
Definition pending (items : list (string * list adj_entry))
    (vis : list string) : nat :=
  sum_list (map (fun p => if bool_decide (p.1 ∈ vis) then O
                          else S (length p.2)) items).

Definition measure {key} (adj : gmap string (list adj_entry))
    (st : locals key) : nat :=
  (length (l_pq st) + pending (map_to_list adj) (l_visited st))%nat.

(** ** Sample requests *)

(** The graph that [Graph(nodes, edges, weight_type)] builds. *)
Definition built (nodes : list string) (edges : list Edge)
    (weight_type : string) : Graph :=
  match Graph_init nodes edges weight_type with
  | Return g => g
  | _ => mkGraph nodes edges weight_type ∅
  end.

(** The steps of a run that returned. *)
Definition run_steps (o : outcome (list string * list PathStep))
    : list PathStep :=
  match o with
  | Return r => r.2
  | _ => []
  end.

(** A set order: for two short strings, the order that a hash seed
    placing the second before the first gives. *)
Definition reverse_order (l : list string) : list string := rev l.

(** A square root for the samples: [math.sqrt] cut to six decimals. *)
Definition sqrt_micro (q : Q) : Q :=
  Z.sqrt (Qnum q * 1000000000000 / Z.pos (Qden q)) # 1000000.

(** Two nodes joined by one edge. *)
Definition pair_graph : Graph :=
  built ["A"; "B"] [mkEdge "A" "B" 1 0] "distance".

(** A line whose first edge is heavier than the sentinel. *)
Definition heavy_graph : Graph :=
  built ["A"; "B"; "C"]
        [mkEdge "A" "B" 2000000 0; mkEdge "B" "C" 1 0] "distance".

(** No node at all. *)
Definition empty_graph : Graph := built [] [] "distance".

(** The square of the specification. *)
Definition square : RouteRequest :=
  mkRequest ["A"; "B"; "C"; "D"]
            [mkEdge "A" "B" 1 0; mkEdge "B" "C" 1 0; mkEdge "C" "D" 1 0;
             mkEdge "A" "D" 5 0]
            "A" "D" "dijkstra" "distance" ∅.

(** The square again, for [astar], its nodes placed on a unit square. *)
Definition placed_square : RouteRequest :=
  mkRequest ["A"; "B"; "C"; "D"]
            [mkEdge "A" "B" 1 0; mkEdge "B" "C" 1 0; mkEdge "C" "D" 1 0;
             mkEdge "A" "D" 5 0]
            "A" "D" "astar" "distance"
            (<["A" := mkPos 0 0]> (<["B" := mkPos 1 0]>
               (<["C" := mkPos 1 1]> (<["D" := mkPos 0 1]> ∅)))).

(** The square with traffic on its first edge and a policy name that is
    none of the three. *)
Definition jammed_square : RouteRequest :=
  mkRequest ["A"; "B"; "C"; "D"]
            [mkEdge "A" "B" 1 10; mkEdge "B" "C" 1 0; mkEdge "C" "D" 1 0;
             mkEdge "A" "D" 5 0]
            "A" "D" "dijkstra" "speed" ∅.

Definition with_weightType (request : RouteRequest) (weight_type : string)
    : RouteRequest :=
  mkRequest (nodes request) (edges request) (start request) (end_ request)
            (algorithm request) weight_type (nodePositions request).

(** A single node whose label is the empty string, routed to itself. *)
Definition unnamed_node : RouteRequest :=
  mkRequest [""] [] "" "" "dijkstra" "distance" ∅.



(** A [dijkstra] request whose start is not a declared node. *)
Definition stray_start : RouteRequest :=
  mkRequest ["B"] [] "A" "B" "dijkstra" "distance" ∅.

(** ** More vocabulary for the graph *)

(** The entries that [edge] appends to the neighbour list of [u]: one for
    each of its ends that is [u], the [from] end first. *)
Definition entries_of_edge (weight_type : string) (u : string) (edge : Edge)
    : list adj_entry :=
  (if bool_decide (from_ edge = u)
   then [(to edge, _get_weight weight_type edge, edge)] else [])
  ++ (if bool_decide (to edge = u)
      then [(from_ edge, _get_weight weight_type edge, edge)] else []).

(** The neighbour list of [u] after all of [edges], in their order. *)
Definition entries_of (weight_type : string) (edges : list Edge) (u : string)
    : list adj_entry :=
  flat_map (entries_of_edge weight_type u) edges.

(** ** The tables of a finished search *)

(** The cost table before the first iteration. *)
Definition initial_distances (nodes : list string) (start : string)
    : gmap string float :=
  <[start := Fin 0]> (list_to_map (map (fun node => (node, Inf)) nodes)).

(** How [while pq:] was left: the frontier was exhausted, [end] is not
    settled and every node with a cost is; or [end] was settled last, and
    its step shows the tables as they are. *)
Definition ended (set_iter : list string -> list string) (end_ : string)
    (dist : gmap string float) (prev : gmap string string)
    (vis : list string) (steps : list PathStep) : Prop :=
  ((end_ ∉ vis) ∧ ∀ n q, dist !! n = Some (Fin q) -> n ∈ vis) ∨
  (∃ vis0 steps0,
     vis = vis0 ++ [end_] ∧ (end_ ∉ vis0) ∧
     steps = steps0 ++ [snapshot set_iter end_ vis dist prev]).

(** The tables [dist], [prev], [vis] when a search returned [p] and
    [steps]: what holds of them, whatever the tuples of the heap were. *)
Record tables_ok (set_iter : list string -> list string) (g : Graph)
    (start end_ : string) (p : list string) (steps : list PathStep)
    (dist : gmap string float) (prev : gmap string string)
    (vis : list string) : Prop := mkTables {
  k_nodup : NoDup vis;
  k_steps : map current steps = vis;
  k_start_dist : dist !! start = Some (Fin 0);
  k_start_prev : prev !! start = None;
  k_vis : ∀ n, n ∈ vis ->
    (n = start ∨ is_Some (prev !! n)) ∧ ∃ q, dist !! n = Some (Fin q);
  k_prev : ∀ n u, prev !! n = Some u ->
    u ∈ vis ∧
    ∃ du w e, dist !! u = Some (Fin du) ∧
              has_entry (adj_list g) u (n, w, e) ∧
              dist !! n = Some (Fin (du + w));
  k_order : ∀ l1 n l2 u, vis = l1 ++ n :: l2 -> prev !! n = Some u -> u ∈ l1;
  k_dom : dom dist = {[start]} ∪ list_to_set (g_nodes g);
  k_ended : ended set_iter end_ dist prev vis steps;
  k_first : ∃ rest,
    steps = snapshot set_iter start [start]
                     (initial_distances (g_nodes g) start) ∅ :: rest;
  k_path :
    (if bool_decide (is_Some (prev !! end_) ∨ start = end_)
     then reconstruct (S (length vis)) prev (Some end_) []
     else Return []) = Return p
}.

(** Bookkeeping at the head of the loop: [end] is not settled; a node
    with a cost is settled or queued; the steps begin with the step of
    [start], unless nothing has happened yet. *)
Record finv {key} (set_iter : list string -> list string)
    (node_of : key -> string) (nodes : list string) (start end_ : string)
    (k0 : key) (st : locals key) : Prop := mkFinv {
  f_end : end_ ∉ l_visited st;
  f_front : ∀ n q, l_distances st !! n = Some (Fin q) ->
    n ∈ l_visited st ∨ ∃ k, k ∈ l_pq st ∧ node_of k = n;
  f_first : st = init_locals nodes start k0 ∨
    ∃ rest, l_steps st
            = snapshot set_iter start [start]
                       (initial_distances nodes start) ∅ :: rest
}.

(** In a step recorded when [vis0] was settled: the current node is
    [start] or has a predecessor, and every predecessor is in [vis0]. *)
Definition step_pred (start : string) (vis0 : list string) (s : PathStep)
    : Prop :=
  (current s = start ∨ is_Some (previous s !! current s)) ∧
  ∀ n u, previous s !! n = Some u -> u ∈ vis0.

(** Every step recorded so far records predecessors settled before it. *)
Definition pinv_of {key} (start : string) (st : locals key) : Prop :=
  ∀ i s, l_steps st !! i = Some s ->
         step_pred start (take i (l_visited st)) s.

(** The square, with an algorithm that does not exist. *)
Definition no_algorithm : RouteRequest :=
  mkRequest (nodes square) (edges square) "A" "D" "bfs" "distance" ∅.


(** A declared node routed to itself. *)
Definition loop_request : RouteRequest :=
  mkRequest ["A"; "B"] [mkEdge "A" "B" 1 0] "A" "A" "dijkstra" "distance" ∅.

(** The settled nodes are listed by nondecreasing cost. *)
Definition sorted_by_cost {key} (st : locals key) : Prop :=
  ∀ l1 u l2 v du dv,
    l_visited st = l1 ++ u :: l2 -> v ∈ l1 ->
    l_distances st !! u = Some (Fin du) ->
    l_distances st !! v = Some (Fin dv) -> dv <= du.

(** ** Totals and policies *)



(** ** Route history *)

(** The fields of an entry of the history. *)
Record RouteHistoryItem : Type := mkItem {
  timestamp : string;
  h_from : option string;
  h_to : string;
  h_path : list string;
  h_algorithm : string;
  h_totalDistance : Q;
  h_totalTraffic : Q
}.

(** [route_dict['timestamp'] = ...] *)
Definition stamp (now : string) (route : RouteHistoryItem)
    : RouteHistoryItem :=
  mkItem now (h_from route) (h_to route) (h_path route) (h_algorithm route)
         (h_totalDistance route) (h_totalTraffic route).

(** [add_route]: the global list [route_history] is passed in and
    returned; [now] is the text of [datetime.now()]. *)
Definition add_route (now : string) (route : RouteHistoryItem)
    (route_history : list RouteHistoryItem) : list RouteHistoryItem :=
  let route_dict := stamp now route in
  let route_history := route_dict :: route_history in
  if (50 <? length route_history)%nat then removelast route_history
  else route_history.

(** [get_history] *)
Definition get_history (route_history : list RouteHistoryItem)
    : list RouteHistoryItem := route_history.

(** [clear_history] *)
Definition clear_history (route_history : list RouteHistoryItem)
    : list RouteHistoryItem := [].

(** The calls that change the history. *)
Inductive history_call : Type :=
  | AddRoute (now : string) (route : RouteHistoryItem)
  | ClearHistory.

Definition history_step (route_history : list RouteHistoryItem)
    (call : history_call) : list RouteHistoryItem :=
  match call with
  | AddRoute now route => add_route now route route_history
  | ClearHistory => clear_history route_history
  end.

(** The history after a sequence of calls, from the empty list of the
    start of the process. *)
Definition history_after (calls : list history_call)
    : list RouteHistoryItem :=
  fold_left history_step calls [].

(** The same calls on a list that is never cut. *)
Definition log_step (log : list RouteHistoryItem) (call : history_call)
    : list RouteHistoryItem :=
  match call with
  | AddRoute now route => stamp now route :: log
  | ClearHistory => []
  end.

Definition log_after (calls : list history_call) : list RouteHistoryItem :=
  fold_left log_step calls [].

(** An entry for the samples. *)
Definition sample_item : RouteHistoryItem :=
  mkItem "" (Some "A") "D" ["A"; "B"; "C"; "D"] "dijkstra" 3 0.

(** ** Outcomes and numbers *)

Lemma bind_Return {A B} (m : outcome A) (f : A -> outcome B) (b : B) :
  m ≫= f = Return b -> ∃ a, m = Return a ∧ f a = Return b.
Proof. destruct m; simpl; intros; try discriminate; eauto. Qed.

Lemma getitem_Return {V} (d : gmap string V) k v :
  getitem d k = Return v -> d !! k = Some v.
Proof. unfold getitem. destruct (d !! k); congruence. Qed.

Lemma getitem_Some {V} (d : gmap string V) k v :
  d !! k = Some v -> getitem d k = Return v.
Proof. unfold getitem. intros ->. reflexivity. Qed.

Ltac inv_bind H :=
  repeat match type of H with
  | _ ≫= _ = Return _ =>
      let a := fresh "a" in
      let Ha := fresh "Hget" in
      apply bind_Return in H as (a & Ha & H)
  end.

Lemma Qltb_lt a b : Qltb a b = true <-> a < b.
Proof.
  unfold Qltb. rewrite negb_true_iff.
  destruct (Qle_bool b a) eqn:E.
  - apply Qle_bool_iff in E. split; [discriminate | intros; lra].
  - split; [intros _ | reflexivity].
    destruct (Qlt_le_dec a b) as [?|Hle]; [assumption|].
    apply Qle_bool_iff in Hle. congruence.
Qed.

Lemma Qltb_ge a b : Qltb a b = false <-> b <= a.
Proof.
  unfold Qltb. rewrite negb_false_iff. apply Qle_bool_iff.
Qed.

Lemma fle_refl a : fle a a.
Proof. destruct a; simpl; [lra | exact I]. Qed.

Lemma fle_trans a b c : fle a b -> fle b c -> fle a c.
Proof. destruct a, b, c; simpl; try tauto; lra. Qed.

Lemma fltb_fle a b : fltb a b = true -> fle a b.
Proof.
  destruct a, b; simpl; try discriminate; try tauto.
  rewrite Qltb_lt. lra.
Qed.

Lemma fltb_false_fle a b : fltb a b = false -> fle b a.
Proof.
  destruct a, b; simpl; try discriminate; try tauto.
  rewrite Qltb_ge. lra.
Qed.

Lemma fltb_Fin a b : fltb a b = true -> ∃ q, a = Fin q.
Proof. destruct a; simpl; [eauto | discriminate]. Qed.

Lemma _get_weight_nonneg weight_type edge :
  nonneg_edge edge = true -> 0 <= _get_weight weight_type edge.
Proof.
  unfold nonneg_edge, _get_weight. rewrite andb_true_iff.
  rewrite !Qle_bool_iff. intros [? ?].
  destruct (String.eqb _ _); [assumption|].
  destruct (String.eqb _ _); [assumption|]. lra.
Qed.

(** ** The adjacency structure *)

Lemma append_at_Return adj k v adj' :
  append_at adj k v = Return adj' ->
  ∃ l, adj !! k = Some l ∧ adj' = <[k := l ++ [v]]> adj.
Proof.
  unfold append_at. intros H. inv_bind H.
  apply getitem_Return in Hget. injection H as <-. eauto.
Qed.

Lemma has_entry_append adj k l v u entry :
  adj !! k = Some l ->
  has_entry (<[k := l ++ [v]]> adj) u entry <->
  has_entry adj u entry ∨ (u = k ∧ entry = v).
Proof.
  intros Hk. unfold has_entry. split.
  - intros (l' & Hl' & Hin). destruct (decide (k = u)) as [->|Hne].
    + rewrite lookup_insert_eq in Hl'. injection Hl' as <-.
      apply elem_of_app in Hin as [Hin|Hin]; [left; eauto|].
      apply list_elem_of_singleton in Hin. right. auto.
    + rewrite lookup_insert_ne in Hl' by assumption. left; eauto.
  - intros [(l' & Hl' & Hin)|[-> ->]].
    + destruct (decide (k = u)) as [->|Hne].
      * rewrite lookup_insert_eq. exists (l ++ [v]). split; [reflexivity|].
        rewrite Hk in Hl'. injection Hl' as ->. apply elem_of_app. auto.
      * rewrite lookup_insert_ne by assumption. eauto.
    + rewrite lookup_insert_eq. exists (l ++ [v]). split; [reflexivity|].
      apply elem_of_app. right. apply list_elem_of_singleton. reflexivity.
Qed.

Lemma append_at_spec adj k v adj' :
  append_at adj k v = Return adj' ->
  k ∈ dom adj ∧ dom adj' = dom adj ∧
  ∀ u entry, has_entry adj' u entry <->
             has_entry adj u entry ∨ (u = k ∧ entry = v).
Proof.
  intros H. apply append_at_Return in H as (l & Hl & ->).
  assert (Hk : k ∈ dom adj) by (eapply elem_of_dom_2; eassumption).
  split; [assumption|]. split.
  - rewrite dom_insert_L. set_solver.
  - intros. apply has_entry_append. assumption.
Qed.

Lemma add_edges_Return weight_type es : ∀ adj adj',
  add_edges weight_type es adj = Return adj' ->
  dom adj' = dom adj ∧
  (∀ edge, edge ∈ es -> from_ edge ∈ dom adj ∧ to edge ∈ dom adj) ∧
  ∀ u v w edge,
    has_entry adj' u (v, w, edge) <->
    has_entry adj u (v, w, edge) ∨
    (edge ∈ es ∧ w = _get_weight weight_type edge ∧ links edge u v).
Proof.
  induction es as [|e es IH]; simpl; intros adj adj' H.
  - injection H as <-. split; [reflexivity|]. split.
    + intros edge Hin. inversion Hin.
    + intros. split; [auto|]. intros [?|[Hin _]]; [assumption|inversion Hin].
  - inv_bind H.
    apply append_at_spec in Hget as (Hk1 & Hd1 & He1).
    apply append_at_spec in Hget0 as (Hk2 & Hd2 & He2).
    apply IH in H as (Hdom & Hends & Hent).
    rewrite Hd2, Hd1 in Hdom. rewrite Hd1 in Hk2.
    split; [assumption|]. split.
    + intros edge Hin. apply elem_of_cons in Hin as [->|Hin]; [auto|].
      apply Hends in Hin. rewrite Hd2, Hd1 in Hin. assumption.
    + intros u v w edge. rewrite Hent, He2, He1.
      unfold links. rewrite elem_of_cons. split.
      * intros [[[?|[-> Heq]]|[-> Heq]]|(Hin & -> & Hl)].
        -- auto.
        -- injection Heq as -> -> ->. right. auto.
        -- injection Heq as -> -> ->. right. auto.
        -- right. auto.
      * intros [?|([->|Hin] & -> & Hl)].
        -- auto.
        -- destruct Hl as [[<- <-]|[<- <-]]; auto.
        -- right. auto.
Qed.

Lemma dom_initial_adj {V} (nodes : list string) (v : V) :
  dom (list_to_map (map (fun node => (node, v)) nodes) : gmap string V)
  = list_to_set nodes.
Proof.
  rewrite dom_list_to_map_L. f_equal.
  rewrite map_map. simpl. apply map_id.
Qed.

Lemma lookup_initial {V} (nodes : list string) (v : V) n v' :
  (list_to_map (map (fun node => (node, v)) nodes) : gmap string V) !! n
  = Some v' -> v' = v.
Proof.
  intros H. apply elem_of_list_to_map_2 in H.
  apply list_elem_of_fmap in H as (m & Heq & _). congruence.
Qed.

(** What [Graph(nodes, edges, weight_type)] holds once built. *)
Lemma Graph_init_Return nodes edges weight_type g :
  Graph_init nodes edges weight_type = Return g ->
  g_nodes g = nodes ∧ g_edges g = edges ∧ g_weight_type g = weight_type ∧
  dom (adj_list g) = list_to_set nodes ∧
  (∀ edge, edge ∈ edges -> from_ edge ∈ nodes ∧ to edge ∈ nodes) ∧
  ∀ u v w edge,
    has_entry (adj_list g) u (v, w, edge) <->
    edge ∈ edges ∧ w = _get_weight weight_type edge ∧ links edge u v.
Proof.
  unfold Graph_init, _build_adjacency_list. intros H. inv_bind H.
  injection H as <-. simpl.
  apply add_edges_Return in Hget as (Hdom & Hends & Hent).
  rewrite dom_initial_adj in Hdom, Hends.
  split; [reflexivity|]. split; [reflexivity|]. split; [reflexivity|].
  split; [assumption|]. split.
  - intros edge Hin. apply Hends in Hin. set_solver.
  - intros u v w edge. rewrite Hent. split; [|auto].
    intros [(l & Hl & Hin)|?]; [|assumption].
    apply lookup_initial in Hl as ->. inversion Hin.
Qed.

Lemma add_edges_total weight_type es : ∀ adj,
  (∀ edge, edge ∈ es -> from_ edge ∈ dom adj ∧ to edge ∈ dom adj) ->
  ∃ adj', add_edges weight_type es adj = Return adj'.
Proof.
  induction es as [|e es IH]; simpl; intros adj H; [eauto|].
  destruct (H e) as [Hf Ht]; [left|].
  apply elem_of_dom in Hf as [l1 Hl1].
  unfold append_at at 2. rewrite (getitem_Some _ _ _ Hl1). simpl.
  set (adj1 := <[from_ e := _]> adj).
  assert (Hd1 : dom adj1 = dom adj).
  { unfold adj1. rewrite dom_insert_L. apply elem_of_dom_2 in Hl1. set_solver. }
  rewrite <- Hd1 in Ht. apply elem_of_dom in Ht as [l2 Hl2].
  unfold append_at. rewrite (getitem_Some _ _ _ Hl2). simpl.
  apply IH. intros edge Hin. rewrite dom_insert_L, Hd1.
  destruct (H edge) as [? ?]; [right; assumption|]. set_solver.
Qed.

Lemma Graph_init_total nodes edges weight_type :
  forallb (known_endpoints nodes) edges = true ->
  ∃ g, Graph_init nodes edges weight_type = Return g.
Proof.
  intros H. unfold Graph_init, _build_adjacency_list.
  destruct (add_edges_total weight_type edges
              (list_to_map (map (fun node => (node, [])) nodes))) as [adj ->].
  - intros edge Hin. rewrite dom_initial_adj.
    rewrite forallb_forall in H. apply list_elem_of_In, H in Hin.
    unfold known_endpoints in Hin. apply andb_true_iff in Hin as [H1 H2].
    apply bool_decide_eq_true in H1, H2. set_solver.
  - simpl. eauto.
Qed.

(** ** The loop, stage by stage *)

Section Loop.
Variable set_iter : list string -> list string.
Context {key : Type}.
Variable key_ltb : key -> key -> bool.
Variable node_of : key -> string.
Variable mk_key : float -> string -> outcome key.
Variable adj : gmap string (list adj_entry).
Variable end_ : string.

Lemma pop_min_perm : ∀ l k m r,
  pop_min key_ltb k l = (m, r) -> k :: l ≡ₚ m :: r.
Proof.
  induction l as [|k' l IH]; simpl; intros k m r H.
  - injection H as <- <-. reflexivity.
  - destruct (key_ltb k' k).
    + destruct (pop_min key_ltb k' l) as [m' r'] eqn:E.
      injection H as <- <-. apply IH in E.
      rewrite E. apply perm_swap.
    + destruct (pop_min key_ltb k l) as [m' r'] eqn:E.
      injection H as <- <-. apply IH in E.
      etransitivity; [apply perm_swap|]. rewrite E. apply perm_swap.
Qed.

Lemma heappop_perm pq m r :
  heappop key_ltb pq = Some (m, r) -> pq ≡ₚ m :: r.
Proof.
  destruct pq as [|k l]; simpl; [discriminate|].
  intros H. injection H as H. apply pop_min_perm. assumption.
Qed.

Lemma heappop_None pq : heappop key_ltb pq = None -> pq = [].
Proof. destruct pq; simpl; [reflexivity | discriminate]. Qed.

(** The three ways one turn of the inner [for] ends. *)
Lemma relax_Return cur st v w e st' :
  relax mk_key cur st (v, w, e) = Return st' ->
  (v ∈ l_visited st ∧ st' = st) ∨
  ((v ∉ l_visited st) ∧
   ∃ dc dn, l_distances st !! cur = Some dc ∧
            l_distances st !! v = Some dn ∧
            ((fltb (fadd dc w) dn = false ∧ st' = st) ∨
             (fltb (fadd dc w) dn = true ∧
              ∃ k, mk_key (fadd dc w) v = Return k ∧
                   st' = improved st cur v (fadd dc w) k))).
Proof.
  unfold relax. case_bool_decide as Hv.
  - intros H. injection H as <-. auto.
  - intros H. inv_bind H. right. split; [assumption|].
    apply getitem_Return in Hget, Hget0. exists a, a0.
    repeat (split; [assumption|]).
    destruct (fltb (fadd a w) a0).
    + right. split; [reflexivity|]. inv_bind H. injection H as <-. eauto.
    + left. injection H as <-. auto.
Qed.

(** A property kept by every turn holds after the [for] loop; the turns
    are told which entries came before. *)
Lemma relax_all_ind (P : list adj_entry -> locals key -> Prop) cur :
  (∀ done entry st st',
     P done st -> relax mk_key cur st entry = Return st' ->
     P (done ++ [entry]) st') ->
  ∀ entries done st st',
    P done st -> relax_all mk_key cur st entries = Return st' ->
    P (done ++ entries) st'.
Proof.
  intros Hstep. induction entries as [|entry rest IH]; simpl;
    intros done st st' HP H.
  - injection H as <-. rewrite app_nil_r. assumption.
  - inv_bind H. rewrite (cons_middle entry), app_assoc.
    eapply IH; [|eassumption]. eapply Hstep; eassumption.
Qed.

(** The four ways an iteration of [while pq:] ends. *)
Lemma iteration_Return st fl :
  iteration set_iter key_ltb node_of mk_key adj end_ st = Return fl ->
  (l_pq st = [] ∧ fl = Break st) ∨
  ∃ k pq, heappop key_ltb (l_pq st) = Some (k, pq) ∧
    ((node_of k ∈ l_visited st ∧ fl = Continue (skipped st pq)) ∨
     ((node_of k ∉ l_visited st) ∧
      ((node_of k = end_ ∧ fl = Break (settled set_iter st (node_of k) pq)) ∨
       (node_of k ≠ end_ ∧
        ∃ entries st',
          adj !! node_of k = Some entries ∧
          relax_all mk_key (node_of k)
                    (settled set_iter st (node_of k) pq) entries = Return st' ∧
          fl = Continue st')))).
Proof.
  unfold iteration. destruct (heappop key_ltb (l_pq st)) as [[k pq]|] eqn:E.
  - intros H. right. exists k, pq. split; [reflexivity|].
    case_bool_decide as Hv.
    + injection H as <-. left. auto.
    + right. split; [assumption|]. case_bool_decide as He.
      * injection H as <-. left. auto.
      * right. split; [assumption|]. inv_bind H. injection H as <-.
        apply getitem_Return in Hget. eauto 6.
  - intros H. injection H as <-. left. split; [|reflexivity].
    apply heappop_None. assumption.
Qed.

(** Invariant rule for [while pq:]: [P] at the head of the loop, [R] at
    its exit. *)
Lemma while_pq_rule (P R : locals key -> Prop) :
  (∀ st, P st -> l_pq st = [] -> R st) ->
  (∀ st k pq, P st -> heappop key_ltb (l_pq st) = Some (k, pq) ->
     node_of k ∈ l_visited st -> P (skipped st pq)) ->
  (∀ st k pq, P st -> heappop key_ltb (l_pq st) = Some (k, pq) ->
     node_of k ∉ l_visited st -> node_of k = end_ ->
     R (settled set_iter st (node_of k) pq)) ->
  (∀ st k pq entries st',
     P st -> heappop key_ltb (l_pq st) = Some (k, pq) ->
     node_of k ∉ l_visited st -> node_of k ≠ end_ ->
     adj !! node_of k = Some entries ->
     relax_all mk_key (node_of k) (settled set_iter st (node_of k) pq)
               entries = Return st' ->
     P st') ->
  ∀ fuel st st',
    P st ->
    while_pq set_iter key_ltb node_of mk_key fuel adj end_ st = Return st' ->
    R st'.
Proof.
  intros Hexit Hskip Hbreak Hrelax.
  induction fuel as [|fuel IH]; simpl; intros st st' HP H; [discriminate|].
  inv_bind H. apply iteration_Return in Hget
    as [[Hpq ->]|(k & pq & Hpop & [[Hv ->]|[Hv [[He ->]|(He & es & st2 & Hes & Hr & ->)]]])].
  - injection H as <-. auto.
  - eapply IH; [|eassumption]. eauto.
  - injection H as <-. eauto.
  - eapply IH; [|eassumption]. eauto.
Qed.

End Loop.

(** ** Structural invariant of a search *)

Section Structure.
Variable set_iter : list string -> list string.
Context {key : Type}.
Variable key_ltb : key -> key -> bool.
Variable node_of : key -> string.
Variable mk_key : float -> string -> outcome key.
Variable adj : gmap string (list adj_entry).
Variable start : string.
Variable dom0 : gset string.
Hypothesis mk_key_node : ∀ d n k, mk_key d n = Return k -> node_of k = n.

Abbreviation sinv := (sinv node_of adj start dom0).

Lemma sinv_init nodes k0 :
  node_of k0 = start ->
  dom0 = {[start]} ∪ list_to_set nodes ->
  sinv (init_locals nodes start k0).
Proof.
  intros Hk0 Hdom. unfold init_locals. split; simpl.
  - constructor.
  - reflexivity.
  - apply lookup_insert_eq.
  - apply lookup_empty.
  - right. split; [reflexivity|]. intros k Hk.
    apply list_elem_of_singleton in Hk as ->. assumption.
  - intros n Hn. inversion Hn.
  - intros k Hk. apply list_elem_of_singleton in Hk as ->. rewrite Hk0.
    split; [left; reflexivity|]. exists 0. apply lookup_insert_eq.
  - intros n u H. rewrite lookup_empty in H. discriminate.
  - intros l1 n l2 u H. destruct l1; discriminate.
  - intros n d Hn _ H. rewrite lookup_insert_ne in H by congruence.
    apply lookup_initial in H. assumption.
  - rewrite dom_insert_L, dom_initial_adj. congruence.
Qed.

Lemma sinv_skipped st k pq :
  sinv st -> heappop key_ltb (l_pq st) = Some (k, pq) ->
  sinv (skipped st pq).
Proof.
  intros [] Hpop. apply heappop_perm in Hpop.
  split; simpl; try assumption.
  - destruct s_started0 as [?|[? Hall]]; [auto|]. right.
    split; [assumption|]. intros k' Hk'. apply Hall. rewrite Hpop.
    right. assumption.
  - intros k' Hk'. apply s_pq0. rewrite Hpop. right. assumption.
Qed.

Lemma sinv_settled st k pq :
  sinv st -> heappop key_ltb (l_pq st) = Some (k, pq) ->
  node_of k ∉ l_visited st ->
  sinv (settled set_iter st (node_of k) pq).
Proof.
  intros [] Hpop Hv. apply heappop_perm in Hpop.
  assert (Hk : k ∈ l_pq st) by (rewrite Hpop; left).
  split; simpl; try assumption.
  - apply NoDup_app. split; [assumption|]. split.
    + intros n Hn Hn'. apply list_elem_of_singleton in Hn' as ->. auto.
    + apply NoDup_singleton.
  - rewrite map_app. simpl. congruence.
  - left. apply elem_of_app. destruct s_started0 as [?|[_ Hall]]; [auto|].
    right. rewrite (Hall k Hk). left.
  - intros n Hn. apply elem_of_app in Hn as [Hn|Hn]; [auto|].
    apply list_elem_of_singleton in Hn as ->. auto.
  - intros k' Hk'. apply s_pq0. rewrite Hpop. right. assumption.
  - intros n u Hn. apply s_prev0 in Hn as [Hu Hd]. split; [|assumption].
    apply elem_of_app. auto.
  - intros l1 n l2 u Heq Hn.
    destruct l2 as [|x l2 _] using rev_ind.
    + apply app_inj_tail in Heq as [<- _]. apply s_prev0 in Hn. tauto.
    + rewrite app_comm_cons, app_assoc in Heq.
      apply app_inj_tail in Heq as [Heq _]. eauto.
Qed.

Lemma sinv_improved st cur v w e q dn k :
  sinv st -> cur ∈ l_visited st -> v ∉ l_visited st ->
  has_entry adj cur (v, w, e) ->
  l_distances st !! cur = Some (Fin q) ->
  l_distances st !! v = Some dn ->
  mk_key (Fin (q + w)) v = Return k ->
  sinv (improved st cur v (Fin (q + w)) k).
Proof.
  intros [] Hcur Hv Hent Hdc Hdn Hk. apply mk_key_node in Hk.
  assert (Hvs : v ≠ start).
  { intros ->. destruct s_started0 as [?|[Hnil _]]; [auto|].
    rewrite Hnil in Hcur. inversion Hcur. }
  assert (Hcv : cur ≠ v) by (intros ->; auto).
  split; simpl.
  - assumption.
  - assumption.
  - rewrite lookup_insert_ne by congruence. assumption.
  - rewrite lookup_insert_ne by congruence. assumption.
  - destruct s_started0 as [?|[Hnil _]]; [auto|].
    rewrite Hnil in Hcur. inversion Hcur.
  - intros n Hn. assert (n ≠ v) by (intros ->; auto).
    rewrite !lookup_insert_ne by congruence. auto.
  - intros k' Hk'. destruct (decide (node_of k' = v)) as [Heq|Hne].
    + rewrite Heq, !lookup_insert_eq. eauto.
    + rewrite !lookup_insert_ne by congruence.
      apply elem_of_app in Hk' as [Hk'|Hk']; [auto|].
      apply list_elem_of_singleton in Hk' as ->. contradiction.
  - intros n u Hn. destruct (decide (n = v)) as [->|Hne].
    + rewrite lookup_insert_eq in Hn. injection Hn as <-.
      split; [assumption|]. exists q, w, e.
      rewrite lookup_insert_ne by congruence. rewrite lookup_insert_eq. auto.
    + rewrite lookup_insert_ne in Hn by congruence.
      destruct (s_prev0 n u Hn) as (Hu & du & w' & e' & H1 & H2 & H3).
      split; [assumption|]. exists du, w', e'.
      assert (u ≠ v) by (intros ->; auto).
      rewrite !lookup_insert_ne by congruence. auto.
  - intros l1 n l2 u Heq Hn. assert (n ≠ v).
    { intros ->. apply Hv. rewrite Heq. apply elem_of_app. right. left. }
    rewrite lookup_insert_ne in Hn by congruence. eauto.
  - intros n d Hn Hp Hd. destruct (decide (n = v)) as [->|Hne].
    + rewrite lookup_insert_eq in Hp. discriminate.
    + rewrite lookup_insert_ne in Hp by congruence.
      rewrite lookup_insert_ne in Hd by congruence. eauto.
  - rewrite dom_insert_L, <- s_dom0. apply elem_of_dom_2 in Hdn. set_solver.
Qed.

(** The inner loop keeps the invariant, and [cur] settled. *)
Lemma sinv_relax_all cur entries : ∀ done st st',
  adj !! cur = Some (done ++ entries) ->
  sinv st -> cur ∈ l_visited st ->
  relax_all mk_key cur st entries = Return st' ->
  sinv st' ∧ l_visited st' = l_visited st ∧ l_steps st' = l_steps st.
Proof.
  induction entries as [|[[v w] e] rest IH]; simpl;
    intros done st st' Hadj Hs Hcur H.
  - injection H as <-. auto.
  - inv_bind H. rewrite (cons_middle _ done rest), app_assoc in Hadj.
    assert (Hent : has_entry adj cur (v, w, e)).
    { eexists. split; [eassumption|]. apply elem_of_app. left.
      apply elem_of_app. right. left. }
    apply (relax_Return _ _ _ _ _ e) in Hget
      as [[_ ->]|(Hv & dc & dn & Hdc & Hdn & [[_ ->]|(Hlt & k & Hk & ->)])].
    + eapply IH; eassumption.
    + eapply IH; eassumption.
    + destruct (s_vis _ _ _ _ _ Hs cur Hcur) as [_ [q Hq]].
      rewrite Hq in Hdc. injection Hdc as <-. simpl in Hk.
      eapply IH in H; [exact H|eassumption| |assumption].
      eapply sinv_improved; eassumption.
Qed.

(** The invariant holds when [while pq:] is left. *)
Lemma sinv_while nodes k0 fuel end_ st :
  node_of k0 = start ->
  dom0 = {[start]} ∪ list_to_set nodes ->
  while_pq set_iter key_ltb node_of mk_key fuel adj end_
           (init_locals nodes start k0) = Return st ->
  sinv st.
Proof.
  intros Hk0 Hdom. apply (while_pq_rule _ _ _ _ _ _ sinv sinv).
  - auto.
  - intros. eapply sinv_skipped; eassumption.
  - intros. eapply sinv_settled; eassumption.
  - intros st1 k pq entries st2 Hs Hpop Hv _ Hadj Hr.
    eapply (sinv_relax_all _ _ []) in Hr as [? _]; try eassumption.
    + eapply sinv_settled; eassumption.
    + simpl. apply elem_of_app. right. left.
  - apply sinv_init; assumption.
Qed.

End Structure.

(** ** Invariant of the recorded steps *)

Section Trace.
Variable set_iter : list string -> list string.
Context {key : Type}.
Variable key_ltb : key -> key -> bool.
Variable node_of : key -> string.
Variable mk_key : float -> string -> outcome key.
Variable adj : gmap string (list adj_entry).
Variable start : string.
Variable dom0 : gset string.
Hypothesis mk_key_node : ∀ d n k, mk_key d n = Return k -> node_of k = n.

Abbreviation sinv' := (sinv node_of adj start dom0).
Abbreviation tinv' := (tinv set_iter adj start dom0).

Lemma snapshot_ok st cur vis :
  sinv' st ->
  snap_ok adj start dom0
          (snapshot set_iter cur vis (l_distances st) (l_previous st)).
Proof.
  intros Hs. unfold snap_ok, snapshot. simpl. repeat split.
  - rewrite dom_fmap_L. apply (s_dom _ _ _ _ _ Hs).
  - intros n v. rewrite lookup_fmap. destruct (l_distances st !! n) as [[q|]|];
      simpl; intros H; inversion H; eauto.
  - rewrite lookup_fmap, (s_start_dist _ _ _ _ _ Hs). reflexivity.
  - intros n [Hn Hp] [v Hv]. rewrite lookup_fmap in *.
    destruct (l_distances st !! n) as [d|] eqn:Hd; [|discriminate].
    rewrite (s_unreached _ _ _ _ _ Hs n d Hn Hp Hd). reflexivity.
  - intros n u Hp.
    destruct (s_prev _ _ _ _ _ Hs n u Hp) as (_ & du & w & e & H1 & H2 & H3).
    exists du, w, e. rewrite !lookup_fmap, H1, H3. auto.
Qed.

Lemma snapshot_follows st cur vis vis' :
  sinv' st ->
  follows start vis' (snapshot set_iter cur vis (l_distances st) (l_previous st))
          (l_distances st).
Proof.
  intros Hs. unfold follows, snapshot. simpl.
  split; [|intros; apply lookup_fmap].
  intros n a. rewrite lookup_fmap.
  destruct (l_distances st !! n) as [d|] eqn:Hd; [|discriminate].
  simpl. intros H. exists d. split; [reflexivity|].
  destruct d as [q|]; simpl in *.
  - injection H as <-. left. lra.
  - right. unfold unreached. simpl.
    assert (Hn : n ≠ start).
    { intros ->. rewrite (s_start_dist _ _ _ _ _ Hs) in Hd. discriminate. }
    split; [assumption|].
    destruct (l_previous st !! n) as [u|] eqn:Hp; [|reflexivity].
    destruct (s_prev _ _ _ _ _ Hs n u Hp) as (_ & ? & ? & ? & _ & _ & H3).
    congruence.
Qed.

Lemma follows_later vis s dist cur vis' prev :
  follows start vis s dist ->
  later start vis s (snapshot set_iter cur vis' dist prev).
Proof.
  intros [Hm Hst]. unfold later, snapshot. simpl. split.
  - intros n a Ha. destruct (Hm n a Ha) as (d & Hd & Hle).
    rewrite lookup_fmap, Hd. simpl. destruct d as [b|]; simpl in *.
    + exists b. split; [reflexivity|]. tauto.
    + exists sentinel. split; [reflexivity|]. tauto.
  - intros n Hn. rewrite lookup_fmap. symmetry. auto.
Qed.

Lemma take_settled (i : nat) (vis : list string) cur :
  (i < length vis)%nat -> take (S i) (vis ++ [cur]) = take (S i) vis.
Proof. intros. apply take_app_le. lia. Qed.

Lemma tinv_settled st k pq :
  sinv' st -> tinv' st ->
  tinv' (settled set_iter st (node_of k) pq).
Proof.
  intros Hs []. pose proof (s_steps _ _ _ _ _ Hs) as Hlen.
  apply (f_equal length) in Hlen. rewrite length_map in Hlen.
  assert (Hlt : ∀ i s, l_steps st !! i = Some s -> (i < length (l_visited st))%nat).
  { intros i s H. apply lookup_lt_Some in H. lia. }
  split; simpl.
  - intros i s H. apply lookup_app_Some in H as [H|[Hge H]].
    + rewrite take_settled by eauto. auto.
    + apply list_lookup_singleton_Some in H as [Hi <-]. simpl.
      f_equal. symmetry. apply take_ge. rewrite length_app. simpl. lia.
  - intros s H. apply elem_of_app in H as [H|H]; [auto|].
    apply list_elem_of_singleton in H as ->. apply snapshot_ok. assumption.
  - intros i s H. apply lookup_app_Some in H as [H|[Hge H]].
    + rewrite take_settled by eauto. auto.
    + apply list_lookup_singleton_Some in H as [Hi <-].
      apply snapshot_follows. assumption.
  - intros i j s s' Hij Hi Hj.
    apply lookup_app_Some in Hj as [Hj|[Hge Hj]].
    + assert (Hi' : l_steps st !! i = Some s).
      { rewrite lookup_app_l in Hi; [assumption|].
        apply lookup_lt_Some in Hj. lia. }
      rewrite take_settled by eauto. eauto.
    + apply list_lookup_singleton_Some in Hj as [Hj <-].
      assert (Hi' : l_steps st !! i = Some s).
      { rewrite lookup_app_l in Hi; [assumption|]. lia. }
      rewrite take_settled by eauto. apply follows_later. auto.
Qed.

Lemma tinv_improved (st : locals key) cur v new dn k :
  tinv' st -> v ∉ l_visited st ->
  l_distances st !! v = Some dn -> fltb new dn = true ->
  tinv' (improved st cur v new k).
Proof.
  intros [] Hv Hdn Hlt. split; simpl; try assumption.
  intros i s Hi. destruct (t_now0 i s Hi) as [Hm Hst]. split.
  - intros n a Ha. destruct (Hm n a Ha) as (d & Hd & Hle).
    destruct (decide (n = v)) as [->|Hne].
    + rewrite lookup_insert_eq. exists new. split; [reflexivity|].
      destruct Hle as [Hle|?]; [left|auto].
      rewrite Hdn in Hd. injection Hd as <-.
      eapply fle_trans; [apply fltb_fle|]; eassumption.
    + rewrite lookup_insert_ne by congruence. eauto.
  - intros n Hn. assert (n ≠ v).
    { intros ->. apply Hv. eapply subseteq_take. eassumption. }
    rewrite lookup_insert_ne by congruence. auto.
Qed.

Lemma tinv_relax_all cur entries : ∀ st st' : locals key,
  tinv' st -> relax_all mk_key cur st entries = Return st' -> tinv' st'.
Proof.
  induction entries as [|[[v w] e] rest IH]; simpl; intros st st' Ht H.
  - injection H as <-. assumption.
  - inv_bind H. apply (relax_Return _ _ _ _ _ e) in Hget
      as [[_ ->]|(Hv & dc & dn & Hdc & Hdn & [[_ ->]|(Hlt & k & Hk & ->)])];
      eauto using tinv_improved.
Qed.

(** Both invariants hold when [while pq:] is left. *)
Lemma invs_while nodes k0 fuel end_ st :
  node_of k0 = start ->
  dom0 = {[start]} ∪ list_to_set nodes ->
  while_pq set_iter key_ltb node_of mk_key fuel adj end_
           (init_locals nodes start k0) = Return st ->
  sinv' st ∧ tinv' st.
Proof.
  intros Hk0 Hdom.
  apply (while_pq_rule _ _ _ _ _ _ (fun st => sinv' st ∧ tinv' st)
                                   (fun st => sinv' st ∧ tinv' st)).
  - auto.
  - intros st1 k pq [Hs Ht] Hpop Hv. split.
    + eapply sinv_skipped; eassumption.
    + destruct Ht. split; assumption.
  - intros st1 k pq [Hs Ht] Hpop Hv _. split.
    + eapply sinv_settled; eassumption.
    + apply tinv_settled; assumption.
  - intros st1 k pq entries st2 [Hs Ht] Hpop Hv _ Hadj Hr. split.
    + eapply sinv_relax_all with (done := []) in Hr as [? _];
        try eassumption.
      * eapply sinv_settled; eassumption.
      * simpl. apply elem_of_app. right. left.
    + eapply tinv_relax_all; [|eassumption]. apply tinv_settled; assumption.
  - split; [apply sinv_init; assumption|].
    unfold init_locals. split; simpl.
    + intros i s H. destruct i; discriminate.
    + intros s H. inversion H.
    + intros i s H. destruct i; discriminate.
    + intros i j s s' _ H. destruct i; discriminate.
Qed.

End Trace.

(** ** Termination of [while pq:] *)

Lemma pending_term_mono (p : string * list adj_entry) vis cur :
  ((if bool_decide (p.1 ∈ vis ++ [cur]) then O else S (length p.2))
   <= (if bool_decide (p.1 ∈ vis) then O else S (length p.2)))%nat.
Proof.
  destruct (bool_decide (p.1 ∈ vis)) eqn:E.
  - apply bool_decide_eq_true in E.
    rewrite bool_decide_eq_true_2; [lia|]. apply elem_of_app. auto.
  - destruct (bool_decide (p.1 ∈ vis ++ [cur])); lia.
Qed.

Lemma pending_mono items vis cur :
  (pending items (vis ++ [cur]) <= pending items vis)%nat.
Proof.
  unfold pending. induction items as [|p items IH]; simpl; [lia|].
  pose proof (pending_term_mono p vis cur). lia.
Qed.

Lemma pending_settle items vis cur entries :
  (cur, entries) ∈ items -> cur ∉ vis ->
  (pending items (vis ++ [cur]) + S (length entries)
   <= pending items vis)%nat.
Proof.
  intros Hin Hv. induction items as [|p items IH]; [inversion Hin|].
  apply elem_of_cons in Hin as [<-|Hin].
  - pose proof (pending_mono items vis cur) as Hm.
    unfold pending in *. simpl.
    rewrite (bool_decide_eq_true_2 (cur ∈ vis ++ [cur])).
    + rewrite (bool_decide_eq_false_2 _ Hv). lia.
    + apply elem_of_app. right. left.
  - specialize (IH Hin). unfold pending in *. simpl.
    pose proof (pending_term_mono p vis cur). lia.
Qed.

Lemma pending_nil items :
  pending items [] = sum_list (map (fun p => S (length p.2)) items).
Proof.
  unfold pending. induction items as [|p items IH]; [reflexivity|].
  cbn [map sum_list]. rewrite IH.
  rewrite bool_decide_eq_false_2; [reflexivity|]. intros Hin. inversion Hin.
Qed.

Section Termination.
#[local] Arguments relax : simpl never.
Variable set_iter : list string -> list string.
Context {key : Type}.
Variable key_ltb : key -> key -> bool.
Variable node_of : key -> string.
Variable mk_key : float -> string -> outcome key.
Variable adj : gmap string (list adj_entry).
Variable end_ : string.
Hypothesis mk_key_fuel : ∀ d n, mk_key d n ≠ OutOfFuel.

Lemma relax_all_bound cur entries : ∀ st : locals key,
  match relax_all mk_key cur st entries with
  | Return st' =>
      l_visited st' = l_visited st ∧
      (length (l_pq st') <= length (l_pq st) + length entries)%nat
  | Raise _ => True
  | OutOfFuel => False
  end.
Proof.
  induction entries as [|[[v w] e] rest IH]; simpl; intros st.
  - split; [reflexivity | lia].
  - destruct (relax mk_key cur st (v, w, e)) as [st1|?|] eqn:E; simpl.
    + specialize (IH st1).
      destruct (relax_all mk_key cur st1 rest) as [st2|?|]; [|exact I|exact IH].
      destruct IH as [IH1 IH2].
      apply (relax_Return _ _ _ _ _ e) in E
        as [[_ ->]|(Hv & dc & dn & Hdc & Hdn & [[_ ->]|(Hlt & k & Hk & ->)])].
      * split; [assumption | lia].
      * split; [assumption | lia].
      * simpl in *. rewrite length_app in IH2. simpl in IH2.
        split; [assumption | lia].
    + exact I.
    + unfold relax in E. case_bool_decide; [discriminate|].
      unfold getitem in E.
      destruct (l_distances st !! cur); simpl in E; [|discriminate].
      destruct (l_distances st !! v); simpl in E; [|discriminate].
      destruct (fltb _ _); [|discriminate].
      destruct (mk_key _ v) eqn:Ek; simpl in E; try discriminate.
      apply mk_key_fuel in Ek. assumption.
Qed.

(** An iteration finishes, and one that goes on lowers the measure. *)
Lemma iteration_bound (st : locals key) :
  match iteration set_iter key_ltb node_of mk_key adj end_ st with
  | Return (Continue st') => (measure adj st' < measure adj st)%nat
  | Return (Break _) => True
  | Raise _ => True
  | OutOfFuel => False
  end.
Proof.
  unfold iteration.
  destruct (heappop key_ltb (l_pq st)) as [[k pq]|] eqn:Hpop; [|exact I].
  apply heappop_perm, Permutation_length in Hpop. simpl in Hpop.
  case_bool_decide as Hv.
  - unfold measure. simpl. lia.
  - case_bool_decide; [exact I|].
    unfold getitem. destruct (adj !! node_of k) as [entries|] eqn:Hadj;
      simpl; [|exact I].
    pose proof (relax_all_bound (node_of k) entries
      (mkLocals (l_distances st) (l_previous st)
                (l_visited st ++ [node_of k])
                (l_steps st ++
                 [snapshot set_iter (node_of k) (l_visited st ++ [node_of k])
                           (l_distances st) (l_previous st)]) pq)) as Hb.
    destruct (relax_all _ _ _ _) as [st'|?|]; simpl; [|exact I|exact Hb].
    destruct Hb as [Hvis Hlen]. simpl in *.
    unfold measure. rewrite Hvis.
    apply elem_of_map_to_list in Hadj.
    pose proof (pending_settle _ (l_visited st) _ _ Hadj Hv) as Hp. lia.
Qed.

Lemma while_pq_finishes : ∀ fuel (st : locals key),
  (measure adj st < fuel)%nat ->
  while_pq set_iter key_ltb node_of mk_key fuel adj end_ st ≠ OutOfFuel.
Proof.
  induction fuel as [|fuel IH]; simpl; intros st Hm; [lia|].
  pose proof (iteration_bound st) as Hb.
  destruct (iteration _ _ _ _ _ _ st) as [[st'|st']|?|]; simpl;
    try discriminate; [|contradiction].
  apply IH. lia.
Qed.

Lemma init_measure nodes start (k0 : key) :
  (measure adj (init_locals nodes start k0) < search_fuel adj)%nat.
Proof.
  unfold measure, init_locals, search_fuel.
  cbn [l_pq l_visited length]. rewrite pending_nil. lia.
Qed.

End Termination.

(** ** From the loop to [dijkstra] and [astar] *)

Lemma search_Return {key} set_iter (key_ltb : key -> key -> bool) node_of
    mk_key g start end_ k0 p steps :
  search set_iter key_ltb node_of mk_key g start end_ k0 = Return (p, steps) ->
  ∃ k st, k0 = Return k ∧
          final_state set_iter key_ltb node_of mk_key g start end_ k st ∧
          reconstruct_path st start end_ = Return p ∧
          steps = l_steps st.
Proof.
  unfold search, final_state. intros H. inv_bind H. injection H as <- <-.
  eauto 6.
Qed.

Lemma search_eq {key} set_iter (key_ltb : key -> key -> bool) node_of
    mk_key g start end_ k st :
  final_state set_iter key_ltb node_of mk_key g start end_ k st ->
  search set_iter key_ltb node_of mk_key g start end_ (Return k)
  = (path ← reconstruct_path st start end_; Return (path, l_steps st)).
Proof. unfold final_state, search. simpl. intros ->. reflexivity. Qed.

Lemma final_state_trace {key} set_iter (key_ltb : key -> key -> bool) node_of
    mk_key g start end_ k st :
  (∀ d n k, mk_key d n = Return k -> node_of k = n) ->
  node_of k = start ->
  final_state set_iter key_ltb node_of mk_key g start end_ k st ->
  sinv node_of (adj_list g) start ({[start]} ∪ list_to_set (g_nodes g)) st ∧
  trace_ok set_iter g start (l_steps st).
Proof.
  intros Hmk Hk H. unfold final_state in H.
  eapply invs_while in H as [Hs Ht]; [|eassumption|eassumption|reflexivity].
  split; [assumption|]. unfold trace_ok.
  pose proof (s_steps _ _ _ _ _ Hs) as Hsteps.
  assert (Htake : ∀ i, map current (take i (l_steps st))
                       = take i (l_visited st)).
  { intros i. rewrite <- Hsteps. symmetry. apply firstn_map. }
  split; [|split; [|split; [|split]]].
  - rewrite Hsteps. apply (s_nodup _ _ _ _ _ Hs).
  - intros n Hn. rewrite Hsteps in Hn.
    destruct (s_vis _ _ _ _ _ Hs n Hn) as [_ [q Hq]].
    apply elem_of_dom_2 in Hq. rewrite (s_dom _ _ _ _ _ Hs) in Hq.
    apply elem_of_union in Hq as [Hq|Hq].
    + left. apply elem_of_singleton in Hq. assumption.
    + right. apply elem_of_list_to_set in Hq. assumption.
  - intros i s Hi. rewrite Htake. apply (t_vis _ _ _ _ _ Ht). assumption.
  - apply (t_ok _ _ _ _ _ Ht).
  - intros i j s s' Hij Hi Hj. rewrite Htake.
    apply (t_pair _ _ _ _ _ Ht i j s s' Hij Hi Hj).
Qed.

Lemma heuristic_key sqrt node_positions end_ d n (k : float * float * string) :
  (h ← heuristic sqrt node_positions end_ n; Return (fadd d h, d, n))
  = Return k -> k.2 = n.
Proof. intros H. inv_bind H. injection H as <-. reflexivity. Qed.

(** The steps of every run are well formed. *)
Lemma search_run_trace set_iter sqrt g start end_ p steps :
  search_run set_iter sqrt g start end_ (p, steps) ->
  trace_ok set_iter g start steps.
Proof.
  intros [H|[pos H]].
  - unfold dijkstra in H.
    apply search_Return in H as (k & st & Hk & Hfin & _ & ->).
    injection Hk as <-.
    eapply final_state_trace in Hfin as [_ ?]; [assumption| |reflexivity].
    intros d n k H. injection H as <-. reflexivity.
  - unfold astar in H.
    apply search_Return in H as (k & st & Hk & Hfin & _ & ->).
    inv_bind Hk. injection Hk as <-.
    eapply final_state_trace in Hfin as [_ ?]; [assumption| |reflexivity].
    intros d n k. apply heuristic_key.
Qed.

(** ** The recorded steps *)

(** C4, as amended.  In every step of every run ([dijkstra] or [astar])
    the [visited] list holds exactly the nodes settled so far, each once,
    in the iteration order of the interpreter's set (any order): it is a
    permutation of the nodes recorded up to that step, and the list of the
    next step is a permutation of it with the next settled node added. *)
Theorem visited_lists_settled_nodes set_iter sqrt g start end_ p steps :
  (∀ l, set_iter l ≡ₚ l) ->
  search_run set_iter sqrt g start end_ (p, steps) ->
  ∀ k s, steps !! k = Some s ->
    visited s ≡ₚ map current (take (S k) steps) ∧
    ∀ s', steps !! S k = Some s' -> visited s' ≡ₚ visited s ++ [current s'].
Proof.
  intros Hperm Hrun k s Hk.
  apply search_run_trace in Hrun as (_ & _ & Hvis & _).
  split.
  - rewrite (Hvis k s Hk). apply Hperm.
  - intros s' Hk'. rewrite (Hvis _ _ Hk'), (Hvis _ _ Hk), !Hperm.
    rewrite (take_S_r _ _ _ Hk'), map_app. reflexivity.
Qed.

Lemma visited_lists_settled_nodes_witness :
  ∃ s s', (run_steps (dijkstra reverse_order pair_graph "A" "B")) !! 0%nat = Some s ∧
          (run_steps (dijkstra reverse_order pair_graph "A" "B")) !! 1%nat = Some s' ∧
          visited s' ≡ₚ visited s ++ [current s'].
Proof.
  eexists _, _. split; [vm_compute; reflexivity|].
  split; [vm_compute; reflexivity|].
  refine (proj2 (visited_lists_settled_nodes reverse_order sqrt_micro pair_graph
                   "A" "B" _ _ _ _ 0%nat _ _) _ _).
  - intros l. symmetry. apply Permutation_rev.
  - left. vm_compute. reflexivity.
  - vm_compute. reflexivity.
  - vm_compute. reflexivity.
Defined.

(** C4 as stated fails: the second step of a run from "A" to "B", under a
    set order that yields "B" before "A", lists ["B"; "A"], while the
    nodes were settled in the order ["A"; "B"]. *)
Lemma visited_not_in_settlement_order :
  ∃ p steps s,
    dijkstra reverse_order pair_graph "A" "B" = Return (p, steps) ∧
    steps !! 1%nat = Some s ∧
    map current steps = ["A"; "B"] ∧
    visited s = ["B"; "A"].
Proof.
  eexists _, _, _. split; [vm_compute; reflexivity|].
  split; [vm_compute; reflexivity|]. split; reflexivity.
Qed.



(** C9, as amended.  In every run each node is recorded at most once as
    the [current] node, so the number of steps never exceeds the number
    of nodes when [start] is one of them, and never exceeds it by more
    than one otherwise. *)
Theorem each_node_settled_once set_iter sqrt g start end_ p steps :
  search_run set_iter sqrt g start end_ (p, steps) ->
  NoDup (map current steps) ∧
  (length steps <= S (length (g_nodes g)))%nat ∧
  (start ∈ g_nodes g -> (length steps <= length (g_nodes g))%nat).
Proof.
  intros Hrun.
  apply search_run_trace in Hrun as (Hnd & Hin & _).
  split; [assumption|].
  rewrite <- (length_map current steps). split.
  - change (S (length (g_nodes g))) with (length (start :: g_nodes g)).
    apply submseteq_length, NoDup_submseteq; [assumption|].
    intros n Hn. apply elem_of_cons. auto.
  - intros Hstart. apply submseteq_length, NoDup_submseteq; [assumption|].
    intros n Hn. destruct (Hin n Hn) as [->|?]; assumption.
Qed.

Lemma each_node_settled_once_witness :
  NoDup (map current (run_steps (dijkstra reverse_order pair_graph "A" "B"))).
Proof.
  refine (proj1 (each_node_settled_once reverse_order sqrt_micro
                   pair_graph "A" "B" _ _ _)).
  left. vm_compute. reflexivity.
Defined.

(** C9 as stated fails: with no node declared and [start = end], one step
    is recorded. *)
Lemma more_steps_than_nodes :
  ∃ p steps,
    dijkstra reverse_order empty_graph "A" "A" = Return (p, steps) ∧
    (length (g_nodes empty_graph) < length steps)%nat.
Proof.
  eexists _, _. split; [vm_compute; reflexivity|]. vm_compute. lia.
Qed.

(** C10, as amended.  Between any step of a run and any later one, the
    cost shown for a node does not increase, unless the node had not been
    reached at the earlier step (its sentinel 999999 gives way to its
    first cost, whatever it is); and the cost shown for a node settled at
    the earlier step is the same at the later one. *)
Theorem costs_never_increase set_iter sqrt g start end_ p steps :
  search_run set_iter sqrt g start end_ (p, steps) ->
  ∀ i j s s', (i < j)%nat -> steps !! i = Some s -> steps !! j = Some s' ->
    (∀ n a, distances s !! n = Some (Fin a) ->
       ∃ b, distances s' !! n = Some (Fin b) ∧
            (b <= a ∨ unreached start s n)) ∧
    (∀ n, n ∈ map current (take (S i) steps) ->
          distances s' !! n = distances s !! n).
Proof.
  intros Hrun i j s s' Hij Hi Hj.
  apply search_run_trace in Hrun as (_ & _ & _ & _ & Hlater).
  exact (Hlater i j s s' Hij Hi Hj).
Qed.

Lemma costs_never_increase_witness :
  ∃ s s', run_steps (dijkstra reverse_order heavy_graph "A" "C") !! 1%nat
          = Some s ∧
          run_steps (dijkstra reverse_order heavy_graph "A" "C") !! 2%nat
          = Some s' ∧
          distances s' !! "A" = distances s !! "A".
Proof.
  eexists _, _. split; [vm_compute; reflexivity|].
  split; [vm_compute; reflexivity|].
  refine (proj2 (costs_never_increase reverse_order sqrt_micro heavy_graph
                   "A" "C" _ _ _ 1%nat 2%nat _ _ _ _ _) "A" _).
  - left. vm_compute. reflexivity.
  - lia.
  - vm_compute. reflexivity.
  - vm_compute. reflexivity.
  - vm_compute. left.
Defined.

(** C10 as stated fails: with a first edge of weight 2000000 the cost
    shown for "B" goes up from the sentinel 999999 to 2000000 between the
    first step and the second. *)
Lemma cost_shown_increases :
  ∃ p steps s s',
    dijkstra reverse_order heavy_graph "A" "C" = Return (p, steps) ∧
    steps !! 0%nat = Some s ∧ steps !! 1%nat = Some s' ∧
    distances s !! "B" = Some (Fin 999999) ∧
    distances s' !! "B" = Some (Fin 2000000).
Proof.
  eexists _, _, _, _. split; [vm_compute; reflexivity|].
  split; [vm_compute; reflexivity|]. split; [vm_compute; reflexivity|].
  split; vm_compute; reflexivity.
Qed.

(** ** The handler on sample requests *)

(** C6.  On the square, by distance, [dijkstra] from "A" to "D" yields the
    path A, B, C, D with total distance 3 and total traffic 0. *)
Theorem square_route set_iter sqrt :
  ∃ steps,
    calculate_route set_iter sqrt square
    = Return (mkResult true ["A"; "B"; "C"; "D"] steps 3 0).
Proof. eexists. vm_compute. reflexivity. Qed.

(** The same route under [astar], the nodes placed on a unit square. *)
Lemma placed_square_route set_iter :
  ∃ steps,
    calculate_route set_iter sqrt_micro placed_square
    = Return (mkResult true ["A"; "B"; "C"; "D"] steps 3 0).
Proof. eexists. vm_compute. reflexivity. Qed.

(** ** Unknown weight policies *)

Lemma _get_weight_other weight_type edge :
  String.eqb weight_type "distance" = false ->
  String.eqb weight_type "traffic" = false ->
  _get_weight weight_type edge = distance edge + traffic edge * 2.
Proof. unfold _get_weight. intros -> ->. reflexivity. Qed.

Lemma add_edges_ext weight_type weight_type' es :
  (∀ edge, _get_weight weight_type edge = _get_weight weight_type' edge) ->
  ∀ adj, add_edges weight_type es adj = add_edges weight_type' es adj.
Proof.
  intros Hext. induction es as [|e es IH]; simpl; intros adj; [reflexivity|].
  rewrite Hext.
  destruct (append_at adj (from_ e) _) as [adj1|?|]; simpl; try reflexivity.
  destruct (append_at adj1 (to e) _) as [adj2|?|]; simpl; try reflexivity.
  apply IH.
Qed.

(** C3, as amended.  A request whose weightType is neither 'distance' nor
    'traffic' is not rejected: every such name is given the formula
    [distance + 2 * traffic], and the request is answered as if its
    weightType were 'combined'. *)
Theorem unknown_policy_is_combined set_iter sqrt request :
  String.eqb (weightType request) "distance" = false ->
  String.eqb (weightType request) "traffic" = false ->
  (∀ edge, _get_weight (weightType request) edge
           = distance edge + traffic edge * 2) ∧
  calculate_route set_iter sqrt request
  = calculate_route set_iter sqrt (with_weightType request "combined").
Proof.
  intros Hd Ht. split; [intros; apply _get_weight_other; assumption|].
  unfold calculate_route, calculate_route_try, run_algorithm, Graph_init,
    _build_adjacency_list. simpl.
  rewrite (add_edges_ext (weightType request) "combined").
  - destruct (add_edges "combined" _ _) as [adj|?|]; reflexivity.
  - intros edge. rewrite !_get_weight_other by (assumption || reflexivity).
    reflexivity.
Qed.

Lemma unknown_policy_is_combined_witness :
  calculate_route reverse_order sqrt_micro jammed_square
  = calculate_route reverse_order sqrt_micro
                    (with_weightType jammed_square "combined").
Proof.
  refine (proj2 (unknown_policy_is_combined reverse_order sqrt_micro
                   jammed_square _ _)); reflexivity.
Defined.

(** C3 as stated fails: the policy name "speed" is accepted, and the
    route avoids the edge with traffic, as under 'combined'. *)
Lemma unknown_policy_is_accepted :
  ∃ steps,
    calculate_route reverse_order sqrt_micro jammed_square
    = Return (mkResult true ["A"; "D"] steps 5 0).
Proof. eexists. vm_compute. reflexivity. Qed.

(** ** A route from a node to itself *)

(** C5, at the request whose only node is labelled by the empty string.
    The search records its one step, but the path is rebuilt by a loop
    that stops on an empty label: the path is empty, and the handler
    answers that no path was found, without any step. *)
Theorem unnamed_node_has_no_route set_iter sqrt :
  calculate_route set_iter sqrt unnamed_node
  = Return (mkResult false [] [] 0 0).
Proof. vm_compute. reflexivity. Qed.

(** ** Errors *)

Lemma append_at_outcome adj k v :
  (∃ adj', append_at adj k v = Return adj') ∨
  append_at adj k v = Raise (KeyError k).
Proof.
  unfold append_at, getitem. destruct (adj !! k); simpl; eauto.
Qed.

Lemma add_edges_outcome weight_type es : ∀ adj,
  (∃ adj', add_edges weight_type es adj = Return adj') ∨
  (∃ k, add_edges weight_type es adj = Raise (KeyError k)).
Proof.
  induction es as [|e es IH]; simpl; intros adj; [eauto|].
  destruct (append_at_outcome adj (from_ e)
              (to e, _get_weight weight_type e, e)) as [[adj1 ->]| ->];
    simpl; [|eauto].
  destruct (append_at_outcome adj1 (to e)
              (from_ e, _get_weight weight_type e, e)) as [[adj2 ->]| ->];
    simpl; [|eauto].
  apply IH.
Qed.




(** ** Searches that exhaust the frontier *)

Section Exhaust.
#[local] Arguments relax : simpl never.
Variable set_iter : list string -> list string.
Context {key : Type}.
Variable key_ltb : key -> key -> bool.
Variable node_of : key -> string.
Variable mk_key : float -> string -> outcome key.
Variable adj : gmap string (list adj_entry).
Variable edges : list Edge.
Variable start : string.
Variable dom0 : gset string.
Hypothesis mk_key_node : ∀ d n k, mk_key d n = Return k -> node_of k = n.
Hypothesis adj_sound : ∀ u v w e,
  has_entry adj u (v, w, e) -> e ∈ edges ∧ links e u v.
Hypothesis adj_complete : ∀ u v e,
  e ∈ edges -> links e u v -> ∃ w, has_entry adj u (v, w, e).

Abbreviation sinv_e := (sinv node_of adj start dom0).
Abbreviation einv_e := (einv node_of adj edges start).

(** One turn of the inner loop keeps the structural invariant. *)
Lemma sinv_relax cur (st st' : locals key) v w e :
  sinv_e st -> cur ∈ l_visited st -> has_entry adj cur (v, w, e) ->
  relax mk_key cur st (v, w, e) = Return st' ->
  sinv_e st' ∧ l_visited st' = l_visited st.
Proof.
  intros Hs Hcur Hent H.
  apply relax_Return in H
    as [[_ ->]|(Hv & dc & dn & Hdc & Hdn & [[_ ->]|(Hlt & k & Hk & ->)])];
    [auto|auto|].
  destruct (s_vis _ _ _ _ _ Hs cur Hcur) as [_ [q Hq]].
  rewrite Hq in Hdc. injection Hdc as <-. simpl in Hk.
  split; [|reflexivity]. eapply sinv_improved; eassumption.
Qed.

Lemma einv_init nodes k0 :
  node_of k0 = start -> einv_e None [] (init_locals nodes start k0).
Proof.
  intros Hk0. unfold init_locals. split; simpl.
  - intros n Hn. inversion Hn.
  - intros u entry Hu. inversion Hu.
  - intros n q Hn. right. exists k0. split; [left|].
    destruct (decide (n = start)) as [->|Hne]; [assumption|].
    rewrite lookup_insert_ne in Hn by congruence.
    apply lookup_initial in Hn. discriminate.
Qed.

Lemma einv_skipped (st : locals key) k pq :
  einv_e None [] st -> heappop key_ltb (l_pq st) = Some (k, pq) ->
  node_of k ∈ l_visited st -> einv_e None [] (skipped st pq).
Proof.
  intros [] Hpop Hv. apply heappop_perm in Hpop.
  split; simpl; try assumption.
  intros n q Hn. destruct (e_front0 n q Hn) as [?|(k' & Hk' & Hnode)]; [auto|].
  rewrite Hpop in Hk'. apply elem_of_cons in Hk' as [->|Hk'].
  - left. congruence.
  - right. eauto.
Qed.

Lemma einv_settled (st : locals key) k pq :
  sinv_e st -> einv_e None [] st ->
  heappop key_ltb (l_pq st) = Some (k, pq) ->
  node_of k ∉ l_visited st ->
  einv_e (Some (node_of k)) [] (settled set_iter st (node_of k) pq).
Proof.
  intros Hs [] Hpop Hv. apply heappop_perm in Hpop.
  assert (Hk : k ∈ l_pq st) by (rewrite Hpop; left).
  split; simpl.
  - intros n Hn. apply elem_of_app in Hn as [Hn|Hn]; [auto|].
    apply list_elem_of_singleton in Hn as ->.
    destruct (s_pq _ _ _ _ _ Hs k Hk) as [[->|[u Hu]] _]; [constructor|].
    destruct (s_prev _ _ _ _ _ Hs _ _ Hu) as (Hvis & du & w & e & _ & Hent & _).
    destruct (adj_sound _ _ _ _ Hent) as [Hin Hl].
    eapply reach_step; eauto.
  - intros u entry Hu Hent [Hne|Hin]; [|inversion Hin].
    apply elem_of_app in Hu as [Hu|Hu].
    + eapply e_closed0; [eassumption..|]. left. discriminate.
    + apply list_elem_of_singleton in Hu as ->. congruence.
  - intros n q Hn. destruct (e_front0 n q Hn) as [?|(k' & Hk' & Hnode)].
    + left. apply elem_of_app. auto.
    + rewrite Hpop in Hk'. apply elem_of_cons in Hk' as [->|Hk'].
      * left. apply elem_of_app. right. rewrite Hnode. left.
      * right. eauto.
Qed.

Lemma einv_relax cur done (st st' : locals key) v w e :
  sinv_e st -> cur ∈ l_visited st ->
  einv_e (Some cur) done st ->
  relax mk_key cur st (v, w, e) = Return st' ->
  einv_e (Some cur) (done ++ [(v, w, e)]) st'.
Proof.
  intros Hs Hcur [] H.
  destruct (s_vis _ _ _ _ _ Hs cur Hcur) as [_ [qc Hqc]].
  apply relax_Return in H
    as [[Hv ->]|(Hv & dc & dn & Hdc & Hdn & [[Hlt ->]|(Hlt & k & Hk & ->)])].
  - split; try assumption.
    intros u entry Hu Hent [Hne|Hin]; [eauto|].
    apply elem_of_app in Hin as [Hin|Hin]; [eauto|].
    apply list_elem_of_singleton in Hin as ->. simpl.
    apply (s_vis _ _ _ _ _ Hs v Hv).
  - split; try assumption.
    intros u entry Hu Hent [Hne|Hin]; [eauto|].
    apply elem_of_app in Hin as [Hin|Hin]; [eauto|].
    apply list_elem_of_singleton in Hin as ->. simpl.
    rewrite Hqc in Hdc. injection Hdc as <-. rewrite Hdn.
    destruct dn as [q|]; [eauto | discriminate].
  - rewrite Hqc in Hdc. injection Hdc as <-. simpl in *.
    apply mk_key_node in Hk. split; simpl.
    + assumption.
    + intros u entry Hu Hent Hor.
      destruct (decide (entry.1.1 = v)) as [->|Hne].
      * rewrite lookup_insert_eq. eauto.
      * rewrite lookup_insert_ne by congruence.
        destruct Hor as [?|Hin]; [eauto|].
        apply elem_of_app in Hin as [Hin|Hin]; [eauto|].
        apply list_elem_of_singleton in Hin as ->. simpl in Hne. congruence.
    + intros n q Hn. destruct (decide (n = v)) as [->|Hne].
      * right. exists k. split; [|assumption].
        apply elem_of_app. right. left.
      * rewrite lookup_insert_ne in Hn by congruence.
        destruct (e_front0 n q Hn) as [?|(k' & Hk' & Hnode)]; [auto|].
        right. exists k'. split; [|assumption]. apply elem_of_app. auto.
Qed.

Lemma invs_relax_all cur entries : ∀ done (st st' : locals key),
  adj !! cur = Some (done ++ entries) ->
  sinv_e st -> cur ∈ l_visited st -> einv_e (Some cur) done st ->
  relax_all mk_key cur st entries = Return st' ->
  sinv_e st' ∧ einv_e (Some cur) (done ++ entries) st'.
Proof.
  induction entries as [|[[v w] e] rest IH]; simpl;
    intros done st st' Hadj Hs Hcur He H.
  - injection H as <-. rewrite app_nil_r. auto.
  - inv_bind H. rewrite (cons_middle _ done rest), app_assoc in Hadj |- *.
    assert (Hent : has_entry adj cur (v, w, e)).
    { eexists. split; [eassumption|]. apply elem_of_app. left.
      apply elem_of_app. right. left. }
    pose proof (einv_relax _ _ _ _ _ _ e Hs Hcur He Hget) as He'.
    apply sinv_relax in Hget as [Hs' Hvis]; try assumption.
    eapply IH; try eassumption. rewrite Hvis. assumption.
Qed.

Lemma einv_finish cur entries (st : locals key) :
  adj !! cur = Some entries ->
  einv_e (Some cur) entries st -> einv_e None [] st.
Proof.
  intros Hadj []. split; try assumption.
  intros u entry Hu Hent _. apply (e_closed0 u); [assumption..|].
  destruct (decide (u = cur)) as [->|Hne].
  - right. destruct Hent as (l & Hl & Hin). congruence.
  - left. congruence.
Qed.

(** At the exit of [while pq:] the settled nodes can be reached from
    [start], and all nodes that can be reached are settled unless [end]
    is. *)
Lemma exhaust_while nodes k0 fuel end_ st :
  node_of k0 = start ->
  dom0 = {[start]} ∪ list_to_set nodes ->
  while_pq set_iter key_ltb node_of mk_key fuel adj end_
           (init_locals nodes start k0) = Return st ->
  sinv_e st ∧
  (∀ n, n ∈ l_visited st -> reachable edges start n) ∧
  (end_ ∉ l_visited st -> ∀ n, reachable edges start n -> n ∈ l_visited st).
Proof.
  intros Hk0 Hdom.
  apply (while_pq_rule _ _ _ _ _ _
           (fun st => sinv_e st ∧ einv_e None [] st)
           (fun st => sinv_e st ∧
              (∀ n, n ∈ l_visited st -> reachable edges start n) ∧
              (end_ ∉ l_visited st ->
               ∀ n, reachable edges start n -> n ∈ l_visited st))).
  - intros st1 [Hs He] Hpq. split; [assumption|].
    split; [apply (e_reach _ _ _ _ _ _ _ He)|].
    intros _ n Hn. induction Hn as [|u v e Hu IH Hin Hl].
    + destruct (e_front _ _ _ _ _ _ _ He start 0
                  (s_start_dist _ _ _ _ _ Hs)) as [?|(k & Hk & _)];
        [assumption|].
      rewrite Hpq in Hk. inversion Hk.
    + destruct (adj_complete _ _ _ Hin Hl) as [w Hent].
      destruct (e_closed _ _ _ _ _ _ _ He u _ IH Hent) as [q Hq];
        [left; discriminate|].
      destruct (e_front _ _ _ _ _ _ _ He _ _ Hq) as [?|(k & Hk & _)];
        [assumption|].
      rewrite Hpq in Hk. inversion Hk.
  - intros st1 k pq [Hs He] Hpop Hv. split.
    + eapply sinv_skipped; eassumption.
    + eapply einv_skipped; eassumption.
  - intros st1 k pq [Hs He] Hpop Hv Hend. split.
    + eapply sinv_settled; eassumption.
    + pose proof (einv_settled _ _ _ Hs He Hpop Hv) as He'.
      split; [apply (e_reach _ _ _ _ _ _ _ He')|].
      intros Hnot. exfalso. apply Hnot. simpl. rewrite Hend.
      apply elem_of_app. right. left.
  - intros st1 k pq entries st2 [Hs He] Hpop Hv _ Hadj Hr.
    eapply (invs_relax_all _ _ []) in Hr as [Hs' He'].
    + split; [assumption|]. eapply einv_finish; eassumption.
    + assumption.
    + eapply sinv_settled; eassumption.
    + simpl. apply elem_of_app. right. left.
    + eapply einv_settled; eassumption.
  - split; [apply sinv_init; assumption | apply einv_init; assumption].
Qed.

End Exhaust.

(** ** Searches on a well-formed graph return *)

Section Total.
#[local] Arguments relax : simpl never.
Variable set_iter : list string -> list string.
Context {key : Type}.
Variable key_ltb : key -> key -> bool.
Variable node_of : key -> string.
Variable mk_key : float -> string -> outcome key.
Variable g : Graph.
Variable edges : list Edge.
Variable start : string.
Hypothesis mk_key_node : ∀ d n k, mk_key d n = Return k -> node_of k = n.
Hypothesis mk_key_fuel : ∀ d n, mk_key d n ≠ OutOfFuel.
Hypothesis mk_key_total : ∀ d n,
  n ∈ dom (adj_list g) -> ∃ k, mk_key d n = Return k.
Hypothesis adj_dom :
  dom (adj_list g) = {[start]} ∪ list_to_set (g_nodes g).
Hypothesis adj_sound : ∀ u v w e,
  has_entry (adj_list g) u (v, w, e) -> e ∈ edges ∧ links e u v.
Hypothesis adj_complete : ∀ u v e,
  e ∈ edges -> links e u v -> ∃ w, has_entry (adj_list g) u (v, w, e).
Hypothesis adj_closed : ∀ u v w e,
  has_entry (adj_list g) u (v, w, e) -> v ∈ dom (adj_list g).

Abbreviation sinv_t := (sinv node_of (adj_list g) start (dom (adj_list g))).

Lemma relax_total cur (st : locals key) v w e :
  sinv_t st -> cur ∈ l_visited st -> has_entry (adj_list g) cur (v, w, e) ->
  ∃ st', relax mk_key cur st (v, w, e) = Return st'.
Proof.
  intros Hs Hcur Hent. unfold relax.
  case_bool_decide; [eauto|].
  destruct (s_vis _ _ _ _ _ Hs cur Hcur) as [_ [q Hq]].
  rewrite (getitem_Some _ _ _ Hq). simpl.
  pose proof (adj_closed _ _ _ _ Hent) as Hv.
  pose proof Hv as Hv'. rewrite <- (s_dom _ _ _ _ _ Hs) in Hv'.
  apply elem_of_dom in Hv' as [dn Hdn].
  rewrite (getitem_Some _ _ _ Hdn). simpl.
  destruct (mk_key_total (Fin (q + w)) v Hv) as [k Hk].
  destruct dn as [q0|]; [destruct (Qltb (q + w) q0)|];
    rewrite ?Hk; simpl; eauto.
Qed.

Lemma relax_all_total cur entries : ∀ done (st : locals key),
  adj_list g !! cur = Some (done ++ entries) ->
  sinv_t st -> cur ∈ l_visited st ->
  ∃ st', relax_all mk_key cur st entries = Return st'.
Proof.
  induction entries as [|[[v w] e] rest IH]; simpl;
    intros done st Hadj Hs Hcur; [eauto|].
  rewrite (cons_middle _ done rest), app_assoc in Hadj.
  assert (Hent : has_entry (adj_list g) cur (v, w, e)).
  { eexists. split; [eassumption|]. apply elem_of_app. left.
    apply elem_of_app. right. left. }
  destruct (relax_total cur st v w e Hs Hcur Hent) as [st1 Hst1].
  rewrite Hst1. simpl.
  eapply sinv_relax with (node_of := node_of) (adj := adj_list g)
    (start := start) (dom0 := dom (adj_list g)) in Hst1 as [Hs1 Hvis];
    try eassumption.
  eapply IH; [eassumption|assumption|]. rewrite Hvis. assumption.
Qed.

Lemma while_pq_total end_ : ∀ fuel (st : locals key),
  sinv_t st -> (measure (adj_list g) st < fuel)%nat ->
  ∃ st', while_pq set_iter key_ltb node_of mk_key fuel (adj_list g) end_ st
         = Return st'.
Proof.
  induction fuel as [|fuel IH]; intros st Hs Hm; [lia|].
  simpl. pose proof (iteration_bound set_iter key_ltb node_of mk_key
                       (adj_list g) end_ mk_key_fuel st) as Hb.
  unfold iteration in *.
  destruct (heappop key_ltb (l_pq st)) as [[k pq]|] eqn:Hpop; simpl; [|eauto].
  case_bool_decide as Hv.
  - simpl. apply IH; [|lia]. eapply sinv_skipped; eassumption.
  - case_bool_decide as Hend; simpl; [eauto|].
    assert (Hs1 : sinv_t (settled set_iter st (node_of k) pq))
      by (eapply sinv_settled; eassumption).
    assert (Hk : k ∈ l_pq st).
    { apply heappop_perm in Hpop. rewrite Hpop. left. }
    destruct (s_pq _ _ _ _ _ Hs k Hk) as [_ [q Hq]].
    apply elem_of_dom_2 in Hq. rewrite (s_dom _ _ _ _ _ Hs) in Hq.
    apply elem_of_dom in Hq as [entries Hentries].
    rewrite (getitem_Some _ _ _ Hentries) in *. simpl in *.
    assert (Hcur : node_of k ∈ l_visited st ++ [node_of k]).
    { apply elem_of_app. right. left. }
    destruct (relax_all_total (node_of k) entries [] _ Hentries Hs1 Hcur)
      as [st2 Hst2].
    unfold settled in Hst2. rewrite Hst2 in *. simpl in *.
    apply IH; [|lia].
    eapply sinv_relax_all with (done := []) in Hst2 as [? _]; eassumption.
Qed.


End Total.

(** ** Requests without a route *)

Lemma heuristic_total sqrt node_positions end_ n :
  is_Some (node_positions !! n) -> is_Some (node_positions !! end_) ->
  ∃ h, heuristic sqrt node_positions end_ n = Return h.
Proof.
  intros [pn Hn] [pe He]. unfold heuristic, getitem.
  rewrite Hn, He. simpl. eauto.
Qed.

Lemma links_endpoints edge u v :
  links edge u v -> (v = from_ edge ∨ v = to edge).
Proof. intros [[_ <-]|[_ <-]]; auto. Qed.




(** ** Shortest paths *)

Section Optimal.
#[local] Arguments relax : simpl never.
Variable set_iter : list string -> list string.
Context {key : Type}.
Variable key_ltb : key -> key -> bool.
Variable node_of : key -> string.
Variable cost_of : key -> float.
Variable mk_key : float -> string -> outcome key.
Variable adj : gmap string (list adj_entry).
Variable start : string.
Variable dom0 : gset string.
Hypothesis mk_key_node : ∀ d n k, mk_key d n = Return k -> node_of k = n.
Hypothesis mk_key_cost : ∀ d n k, mk_key d n = Return k -> cost_of k = d.
Hypothesis ltb_le : ∀ a b,
  key_ltb a b = true -> fle (cost_of a) (cost_of b).
Hypothesis nltb_le : ∀ a b,
  key_ltb a b = false -> fle (cost_of b) (cost_of a).
Hypothesis nonneg : ∀ u v w e, has_entry adj u (v, w, e) -> 0 <= w.

Abbreviation sinv_o := (sinv node_of adj start dom0).
Abbreviation oinv_o := (oinv node_of cost_of adj start).

Lemma pop_min_least : ∀ l k m r,
  pop_min key_ltb k l = (m, r) ->
  fle (cost_of m) (cost_of k) ∧ ∀ z, z ∈ l -> fle (cost_of m) (cost_of z).
Proof.
  induction l as [|k' l IH]; simpl; intros k m r H.
  - injection H as <- <-. split; [apply fle_refl|].
    intros z Hz. inversion Hz.
  - destruct (key_ltb k' k) eqn:E.
    + destruct (pop_min key_ltb k' l) as [m' r'] eqn:E'.
      injection H as <- <-. apply IH in E' as [H1 H2]. split.
      * eapply fle_trans; [eassumption|]. apply ltb_le. assumption.
      * intros z Hz. apply elem_of_cons in Hz as [->|Hz]; auto.
    + destruct (pop_min key_ltb k l) as [m' r'] eqn:E'.
      injection H as <- <-. apply IH in E' as [H1 H2]. split; [assumption|].
      intros z Hz. apply elem_of_cons in Hz as [->|Hz]; [|auto].
      eapply fle_trans; [eassumption|]. apply nltb_le. assumption.
Qed.

Lemma heappop_least pq m r :
  heappop key_ltb pq = Some (m, r) ->
  ∀ z, z ∈ pq -> fle (cost_of m) (cost_of z).
Proof.
  destruct pq as [|k l]; simpl; [discriminate|].
  intros H. injection H as H. apply pop_min_least in H as [H1 H2].
  intros z Hz. apply elem_of_cons in Hz as [->|Hz]; auto.
Qed.

(** A walk that ends outside the settled nodes costs at least as much as
    some queued tuple. *)
Lemma frontier (st : locals key) :
  sinv_o st -> oinv_o None [] st ->
  ∀ x c, walk adj start x c -> x ∉ l_visited st ->
  ∃ k, k ∈ l_pq st ∧ fle (cost_of k) (Fin c).
Proof.
  intros Hs Ho x c Hw. induction Hw as [|u v w e c Hw IH Hent]; intros Hx.
  - destruct (o_key _ _ _ _ _ _ _ Ho start 0 Hx (s_start_dist _ _ _ _ _ Hs))
      as (k & Hk & _ & Hc).
    exists k. split; [assumption|]. rewrite Hc. simpl. lra.
  - pose proof (nonneg _ _ _ _ Hent) as Hw0.
    destruct (decide (u ∈ l_visited st)) as [Hu|Hu].
    + destruct (s_vis _ _ _ _ _ Hs u Hu) as [_ [du Hdu]].
      pose proof (o_settled _ _ _ _ _ _ _ Ho u du c Hu Hdu Hw) as Hle.
      destruct (o_relaxed _ _ _ _ _ _ _ Ho u v w e du Hu Hent) as (dv & Hdv & Hle');
        [left; discriminate|assumption|].
      destruct (o_key _ _ _ _ _ _ _ Ho v dv Hx Hdv) as (k & Hk & _ & Hc).
      exists k. split; [assumption|]. rewrite Hc. simpl. lra.
    + destruct (IH Hu) as (k & Hk & Hle). exists k. split; [assumption|].
      eapply fle_trans; [eassumption|]. simpl. lra.
Qed.

Lemma oinv_init nodes k0 :
  node_of k0 = start -> cost_of k0 = Fin 0 ->
  oinv_o None [] (init_locals nodes start k0).
Proof.
  intros Hk0 Hc0. unfold init_locals. split; simpl.
  - intros u du c Hu. inversion Hu.
  - intros u v w e du Hu. inversion Hu.
  - intros u k du Hu. inversion Hu.
  - intros n q _ Hn. exists k0. split; [left|].
    destruct (decide (n = start)) as [->|Hne].
    + rewrite lookup_insert_eq in Hn. injection Hn as <-. auto.
    + rewrite lookup_insert_ne in Hn by congruence.
      apply lookup_initial in Hn. discriminate.
  - intros k Hk. apply list_elem_of_singleton in Hk as ->.
    rewrite Hk0, lookup_insert_eq, Hc0. eexists. split; [reflexivity|].
    simpl. lra.
  - discriminate.
Qed.

Lemma oinv_skipped (st : locals key) k pq :
  oinv_o None [] st -> heappop key_ltb (l_pq st) = Some (k, pq) ->
  node_of k ∈ l_visited st -> oinv_o None [] (skipped st pq).
Proof.
  intros [] Hpop Hv. apply heappop_perm in Hpop.
  assert (Hsub : ∀ k', k' ∈ pq -> k' ∈ l_pq st).
  { intros k' Hk'. rewrite Hpop. right. assumption. }
  split; simpl; try assumption.
  - intros u k' du Hu Hk'. apply o_front0; auto.
  - intros n q Hn Hd. destruct (o_key0 n q Hn Hd) as (k' & Hk' & Hnode & Hc).
    exists k'. split; [|auto]. rewrite Hpop in Hk'.
    apply elem_of_cons in Hk' as [->|?]; [|assumption].
    exfalso. apply Hn. rewrite <- Hnode. assumption.
  - intros k' Hk'. apply o_stale0. auto.
Qed.

Lemma oinv_settled (st : locals key) k pq :
  sinv_o st -> oinv_o None [] st ->
  heappop key_ltb (l_pq st) = Some (k, pq) ->
  node_of k ∉ l_visited st ->
  oinv_o (Some (node_of k)) [] (settled set_iter st (node_of k) pq).
Proof.
  intros Hs Ho Hpop Hv.
  pose proof (heappop_least _ _ _ Hpop) as Hleast.
  pose proof (frontier st Hs Ho) as Hfront.
  destruct Ho. apply heappop_perm in Hpop.
  assert (Hk : k ∈ l_pq st) by (rewrite Hpop; left).
  assert (Hsub : ∀ k', k' ∈ pq -> k' ∈ l_pq st).
  { intros k' Hk'. rewrite Hpop. right. assumption. }
  destruct (s_pq _ _ _ _ _ Hs k Hk) as [_ [dc Hdc]].
  assert (Hstale : fle (Fin dc) (cost_of k)).
  { destruct (o_stale0 k Hk) as (d & Hd & Hle). congruence. }
  assert (Hmin : fle (cost_of k) (Fin dc)).
  { destruct (o_key0 _ _ Hv Hdc) as (k' & Hk' & _ & Hc).
    rewrite <- Hc. auto. }
  split; simpl.
  - intros u du c Hu Hdu Hw. apply elem_of_app in Hu as [Hu|Hu]; [eauto|].
    apply list_elem_of_singleton in Hu as ->.
    destruct (Hfront _ _ Hw Hv) as (k' & Hk' & Hle).
    rewrite Hdc in Hdu. injection Hdu as <-.
    assert (H : fle (Fin dc) (Fin c)).
    { eapply fle_trans; [exact Hstale|].
      eapply fle_trans; [apply Hleast; exact Hk'|exact Hle]. }
    exact H.
  - intros u v w e du Hu Hent [Hne|Hin] Hdu; [|inversion Hin].
    apply elem_of_app in Hu as [Hu|Hu].
    + eapply o_relaxed0; try eassumption. left. discriminate.
    + apply list_elem_of_singleton in Hu as ->. congruence.
  - intros u k' du Hu Hk' Hdu. apply elem_of_app in Hu as [Hu|Hu];
      [apply (o_front0 u k' du); auto|].
    apply list_elem_of_singleton in Hu as ->.
    rewrite Hdc in Hdu. injection Hdu as <-.
    apply (fle_trans (Fin dc) (cost_of k) (cost_of k') Hstale). auto.
  - intros n q Hn Hd.
    assert (Hn1 : n ∉ l_visited st).
    { intros H. apply Hn. apply elem_of_app. auto. }
    assert (Hn2 : n ≠ node_of k).
    { intros ->. apply Hn. apply elem_of_app. right. left. }
    destruct (o_key0 n q Hn1 Hd) as (k' & Hk' & Hnode & Hc).
    exists k'. split; [|auto]. rewrite Hpop in Hk'.
    apply elem_of_cons in Hk' as [->|?]; [congruence|assumption].
  - intros k' Hk'. auto.
  - intros c dc' u du Hc Hdc' Hu Hdu. injection Hc as <-.
    rewrite Hdc in Hdc'. injection Hdc' as <-.
    apply elem_of_app in Hu as [Hu|Hu].
    + assert (H : fle (Fin du) (Fin dc)).
      { eapply fle_trans; [|exact Hmin]. eauto. }
      exact H.
    + apply list_elem_of_singleton in Hu as ->.
      rewrite Hdc in Hdu. injection Hdu as <-. lra.
Qed.

Lemma oinv_relax cur done (st st' : locals key) v w e :
  sinv_o st -> cur ∈ l_visited st -> has_entry adj cur (v, w, e) ->
  oinv_o (Some cur) done st ->
  relax mk_key cur st (v, w, e) = Return st' ->
  oinv_o (Some cur) (done ++ [(v, w, e)]) st'.
Proof.
  intros Hs Hcur Hent Ho H.
  pose proof (nonneg _ _ _ _ Hent) as Hw.
  destruct (s_vis _ _ _ _ _ Hs cur Hcur) as [_ [dc Hdc]].
  destruct Ho.
  assert (Hold : ∀ u x w' e', Some u ≠ Some cur ∨ (x, w', e') ∈ done ++ [(v, w, e)] ->
            (Some u ≠ Some cur ∨ (x, w', e') ∈ done) ∨
            (u = cur ∧ (x, w', e') = (v, w, e))).
  { intros u x w' e' [?|Hin]; [auto|].
    apply elem_of_app in Hin as [?|Hin]; [auto|].
    apply list_elem_of_singleton in Hin.
    destruct (decide (u = cur)); [auto|]. left. left. congruence. }
  apply relax_Return in H
    as [[Hv ->]|(Hv & dc' & dn & Hdc' & Hdn & [[Hlt ->]|(Hlt & k & Hk & ->)])].
  - split; try assumption.
    intros u x w' e' du Hu Hux Hor Hdu.
    apply Hold in Hor as [Hor|[-> Heq]]; [eauto|].
    injection Heq as -> -> ->.
    destruct (s_vis _ _ _ _ _ Hs v Hv) as [_ [dv Hdv]].
    exists dv. split; [assumption|].
    pose proof (o_mono0 cur du v dv eq_refl Hdu Hv Hdv). lra.
  - split; try assumption.
    intros u x w' e' du Hu Hux Hor Hdu.
    apply Hold in Hor as [Hor|[-> Heq]]; [eauto|].
    injection Heq as -> -> ->.
    rewrite Hdu in Hdc'. injection Hdc' as <-.
    apply fltb_false_fle in Hlt. destruct dn as [dv|]; [|contradiction].
    exists dv. split; [assumption|]. exact Hlt.
  - rewrite Hdc in Hdc'. injection Hdc' as <-. cbn [fadd] in *.
    pose proof (mk_key_cost _ _ _ Hk) as Hcost.
    apply mk_key_node in Hk.
    apply fltb_fle in Hlt.
    assert (Hcv : cur ≠ v) by (intros ->; auto).
    split; simpl.
    + intros u du c Hu Hdu. assert (u ≠ v) by (intros ->; auto).
      rewrite lookup_insert_ne in Hdu by congruence. eauto.
    + intros u x w' e' du Hu Hux Hor Hdu.
      assert (u ≠ v) by (intros ->; auto).
      rewrite lookup_insert_ne in Hdu by congruence.
      apply Hold in Hor as [Hor|[-> Heq]].
      * destruct (o_relaxed0 u x w' e' du Hu Hux Hor Hdu) as (dx & Hdx & Hle).
        destruct (decide (x = v)) as [->|Hne].
        -- rewrite lookup_insert_eq. eexists. split; [reflexivity|].
           rewrite Hdn in Hdx. injection Hdx as ->. simpl in Hlt. lra.
        -- rewrite lookup_insert_ne by congruence. eauto.
      * injection Heq as -> -> ->. rewrite lookup_insert_eq.
        eexists. split; [reflexivity|].
        rewrite Hdc in Hdu. injection Hdu as <-. lra.
    + intros u k' du Hu Hk' Hdu. assert (u ≠ v) by (intros ->; auto).
      rewrite lookup_insert_ne in Hdu by congruence.
      apply elem_of_app in Hk' as [Hk'|Hk'];
        [exact (o_front0 u k' du Hu Hk' Hdu)|].
      apply list_elem_of_singleton in Hk' as ->. rewrite Hcost. simpl.
      pose proof (o_mono0 cur dc u du eq_refl Hdc Hu Hdu). lra.
    + intros n q Hn Hd. destruct (decide (n = v)) as [->|Hne].
      * rewrite lookup_insert_eq in Hd. injection Hd as <-.
        exists k. split; [|auto]. apply elem_of_app. right. left.
      * rewrite lookup_insert_ne in Hd by congruence.
        destruct (o_key0 n q Hn Hd) as (k' & Hk' & Hnode & Hc).
        exists k'. split; [|auto]. apply elem_of_app. auto.
    + intros k' Hk'. apply elem_of_app in Hk' as [Hk'|Hk'].
      * destruct (o_stale0 k' Hk') as (d & Hd & Hle).
        destruct (decide (node_of k' = v)) as [Heq|Hne].
        -- rewrite Heq, lookup_insert_eq. eexists. split; [reflexivity|].
           rewrite Heq, Hdn in Hd. injection Hd as <-.
           eapply fle_trans; eassumption.
        -- rewrite lookup_insert_ne by congruence. eauto.
      * apply list_elem_of_singleton in Hk' as ->.
        rewrite Hk, lookup_insert_eq, Hcost. eexists.
        split; [reflexivity|]. apply fle_refl.
    + intros c dc' u du Hc Hdc' Hu Hdu. injection Hc as <-.
      assert (u ≠ v) by (intros ->; auto).
      rewrite lookup_insert_ne in Hdc' by congruence.
      rewrite lookup_insert_ne in Hdu by congruence. eauto.
Qed.

Lemma oinv_relax_all cur entries : ∀ done (st st' : locals key),
  adj !! cur = Some (done ++ entries) ->
  sinv_o st -> cur ∈ l_visited st -> oinv_o (Some cur) done st ->
  relax_all mk_key cur st entries = Return st' ->
  sinv_o st' ∧ oinv_o (Some cur) (done ++ entries) st'.
Proof.
  induction entries as [|[[v w] e] rest IH]; simpl;
    intros done st st' Hadj Hs Hcur Ho H.
  - injection H as <-. rewrite app_nil_r. auto.
  - inv_bind H. rewrite (cons_middle _ done rest), app_assoc in Hadj |- *.
    assert (Hent : has_entry adj cur (v, w, e)).
    { eexists. split; [eassumption|]. apply elem_of_app. left.
      apply elem_of_app. right. left. }
    pose proof (oinv_relax _ _ _ _ _ _ _ Hs Hcur Hent Ho Hget) as Ho'.
    eapply sinv_relax in Hget as [Hs' Hvis]; try eassumption.
    eapply IH; try eassumption. rewrite Hvis. assumption.
Qed.

Lemma oinv_finish cur entries (st : locals key) :
  adj !! cur = Some entries ->
  oinv_o (Some cur) entries st -> oinv_o None [] st.
Proof.
  intros Hadj []. split; try assumption.
  - intros u v w e du Hu Hent _ Hdu.
    apply (o_relaxed0 u v w e du Hu Hent); [|assumption].
    destruct (decide (u = cur)) as [->|Hne].
    + right. destruct Hent as (l & Hl & Hin).
      rewrite Hadj in Hl. injection Hl as <-. assumption.
    + left. congruence.
  - discriminate.
Qed.

(** At the exit of [while pq:] the cost of every settled node is that of
    a cheapest walk, and [end] is settled if it has a cost. *)
Lemma optimal_while nodes k0 fuel end_ st :
  node_of k0 = start -> cost_of k0 = Fin 0 ->
  dom0 = {[start]} ∪ list_to_set nodes ->
  while_pq set_iter key_ltb node_of mk_key fuel adj end_
           (init_locals nodes start k0) = Return st ->
  sinv_o st ∧
  (∀ u du c, u ∈ l_visited st -> l_distances st !! u = Some (Fin du) ->
             walk adj start u c -> du <= c) ∧
  (∀ q, l_distances st !! end_ = Some (Fin q) -> end_ ∈ l_visited st).
Proof.
  intros Hk0 Hc0 Hdom.
  apply (while_pq_rule _ _ _ _ _ _
           (fun st => sinv_o st ∧ oinv_o None [] st)
           (fun st => sinv_o st ∧
              (∀ u du c, u ∈ l_visited st ->
                 l_distances st !! u = Some (Fin du) ->
                 walk adj start u c -> du <= c) ∧
              (∀ q, l_distances st !! end_ = Some (Fin q) ->
                    end_ ∈ l_visited st))).
  - intros st1 [Hs Ho] Hpq. split; [assumption|].
    split; [apply (o_settled _ _ _ _ _ _ _ Ho)|].
    intros q Hq. destruct (decide (end_ ∈ l_visited st1)) as [?|Hn];
      [assumption|].
    destruct (o_key _ _ _ _ _ _ _ Ho _ _ Hn Hq) as (k & Hk & _).
    rewrite Hpq in Hk. inversion Hk.
  - intros st1 k pq [Hs Ho] Hpop Hv. split.
    + eapply sinv_skipped; eassumption.
    + eapply oinv_skipped; eassumption.
  - intros st1 k pq [Hs Ho] Hpop Hv Hend. split.
    + eapply sinv_settled; eassumption.
    + pose proof (oinv_settled _ _ _ Hs Ho Hpop Hv) as Ho'.
      split; [apply (o_settled _ _ _ _ _ _ _ Ho')|].
      intros q _. simpl. rewrite Hend. apply elem_of_app. right. left.
  - intros st1 k pq entries st2 [Hs Ho] Hpop Hv _ Hadj Hr.
    eapply (oinv_relax_all _ _ []) in Hr as [Hs' Ho'].
    + split; [assumption|]. eapply oinv_finish; eassumption.
    + assumption.
    + eapply sinv_settled; eassumption.
    + simpl. apply elem_of_app. right. left.
    + eapply oinv_settled; eassumption.
  - split; [apply sinv_init; assumption | apply oinv_init; assumption].
Qed.

End Optimal.

(** ** The path returned by [dijkstra] *)

Lemma reconstruct_None fuel previous path :
  reconstruct fuel previous None path = Return path.
Proof. destruct fuel; reflexivity. Qed.


Lemma route_walk adj start edges weight_type :
  (∀ u v e, e ∈ edges -> links e u v ->
            has_entry adj u (v, _get_weight weight_type e, e)) ->
  ∀ p c, route edges weight_type p c ->
  ∀ u c0, head p = Some u -> walk adj start u c0 ->
  ∃ v c', last p = Some v ∧ walk adj start v c' ∧ c' == c0 + c.
Proof.
  intros Hadj p c Hr. induction Hr as [u|u v p e c Hin Hl Hr IH];
    intros u0 c0 Hhd Hw; injection Hhd as <-.
  - exists u, c0. split; [reflexivity|]. split; [assumption | lra].
  - destruct (IH v (c0 + _get_weight weight_type e) eq_refl)
      as (v' & c' & Hlast & Hw' & Hc').
    { eapply walk_step; [eassumption|]. apply Hadj; assumption. }
    exists v', c'. split; [assumption|]. split; [assumption | lra].
Qed.

Lemma feqb_fle a b : feqb a b = true -> fle a b ∧ fle b a.
Proof.
  destruct a, b; simpl; try discriminate; [|tauto].
  intros H. apply Qeq_bool_iff in H. lra.
Qed.

Lemma pair_ltb_le a b : pair_ltb a b = true -> fle a.1 b.1.
Proof.
  unfold pair_ltb. destruct (feqb a.1 b.1) eqn:E.
  - intros _. apply feqb_fle in E. tauto.
  - apply fltb_fle.
Qed.

Lemma pair_nltb_le a b : pair_ltb a b = false -> fle b.1 a.1.
Proof.
  unfold pair_ltb. destruct (feqb a.1 b.1) eqn:E.
  - intros _. apply feqb_fle in E. tauto.
  - apply fltb_false_fle.
Qed.



(** When no label is empty, the rebuilt path begins at [start]. *)
Lemma reconstruct_head {key} (node_of : key -> string) adj start dom0
    (st : locals key) :
  sinv node_of adj start dom0 st -> "" ∉ dom0 ->
  ∀ fuel n acc p,
    n = start ∨ is_Some (l_previous st !! n) ->
    is_Some (l_distances st !! n) ->
    reconstruct fuel (l_previous st) (Some n) acc = Return p ->
    head p = Some start.
Proof.
  intros Hs Hlabel.
  assert (Hne : ∀ n, is_Some (l_distances st !! n) -> n ≠ "").
  { intros n Hn ->. apply Hlabel. rewrite <- (s_dom _ _ _ _ _ Hs).
    apply elem_of_dom. assumption. }
  induction fuel as [|fuel IH]; intros n acc p Hn Hd H; simpl in H;
    rewrite (bool_decide_eq_false_2 _ (Hne n Hd)) in H; [discriminate|].
  destruct (l_previous st !! n) as [u|] eqn:Hu.
  - destruct (s_prev _ _ _ _ _ Hs n u Hu) as [Hvis _].
    destruct (s_vis _ _ _ _ _ Hs u Hvis) as [Hreach [q Hq]].
    eapply IH; [| |eassumption]; eauto.
  - rewrite reconstruct_None in H. injection H as <-.
    destruct Hn as [->|[? ?]]; [reflexivity | discriminate].
Qed.

(** When neither [start] nor a declared node has the empty label, a
    non-empty path returned by [dijkstra] begins at [start]. *)
Lemma dijkstra_path_begins_at_start set_iter g start end_ p steps :
  start ≠ "" -> "" ∉ g_nodes g ->
  dijkstra set_iter g start end_ = Return (p, steps) ->
  p ≠ [] -> head p = Some start.
Proof.
  intros Hstart Hnodes Hd Hp. unfold dijkstra in Hd.
  apply search_Return in Hd as (k & st & Hk & Hfin & Hrec & _).
  injection Hk as <-.
  eapply final_state_trace in Hfin as [Hs _]; [| |reflexivity].
  2: { intros d n k H. injection H as <-. reflexivity. }
  unfold reconstruct_path in Hrec. case_bool_decide as Hcond.
  2: { injection Hrec as <-. congruence. }
  eapply (reconstruct_head snd) in Hrec; try eassumption.
  - rewrite elem_of_union, elem_of_singleton, elem_of_list_to_set.
    intros [?|?]; [congruence | contradiction].
  - destruct Hcond as [?|?]; auto.
  - destruct Hcond as [[u Hu]| <-].
    + destruct (s_prev _ _ _ _ _ Hs _ _ Hu) as (_ & ? & ? & ? & _ & _ & H).
      eauto.
    + rewrite (s_start_dist _ _ _ _ _ Hs). eauto.
Qed.

(** ** A route from a node to itself, the label not empty *)

Lemma search_to_itself {key} set_iter (key_ltb : key -> key -> bool) node_of
    mk_key g start k :
  node_of k = start -> start ≠ "" ->
  search set_iter key_ltb node_of mk_key g start start (Return k)
  = Return ([start],
            [snapshot set_iter start [start]
               (l_distances (init_locals (g_nodes g) start k)) ∅]).
Proof.
  intros Hk Hne.
  assert (Hst : final_state set_iter key_ltb node_of mk_key g start start k
                  (settled set_iter (init_locals (g_nodes g) start k)
                           start [])).
  { unfold final_state, search_fuel. cbn [while_pq].
    unfold iteration. cbn [init_locals l_pq heappop pop_min l_visited].
    rewrite Hk. rewrite bool_decide_eq_false_2 by (intros H; inversion H).
    rewrite bool_decide_eq_true_2 by reflexivity. reflexivity. }
  rewrite (search_eq _ _ _ _ _ _ _ _ _ Hst).
  unfold reconstruct_path. rewrite bool_decide_eq_true_2 by auto.
  cbn [settled init_locals l_visited l_previous l_steps l_distances
       length app reconstruct].
  rewrite bool_decide_eq_false_2 by assumption.
  rewrite lookup_empty. reflexivity.
Qed.

(** X20.  For a request from a node to itself whose label is not empty,
    the path is that node alone, one step is recorded, for that node, and
    both totals are 0. *)
Lemma route_to_itself set_iter sqrt request :
  forallb (known_endpoints (nodes request)) (edges request) = true ->
  start request = end_ request -> start request ≠ "" ->
  algorithm request = "dijkstra" ∨
  (algorithm request = "astar" ∧
   is_Some (nodePositions request !! start request)) ->
  ∃ s, calculate_route set_iter sqrt request
       = Return (mkResult true [start request] [s] 0 0) ∧
       current s = start request.
Proof.
  intros Hedges Heq Hne Halg.
  destruct (Graph_init_total _ _ (weightType request) Hedges) as [g HG].
  unfold calculate_route, calculate_route_try, run_algorithm.
  rewrite HG, <- Heq. cbn [mbind outcome_bind].
  destruct Halg as [-> | [-> Hpos]]; cbn [String.eqb Ascii.eqb Bool.eqb].
  - unfold dijkstra. rewrite search_to_itself by auto.
    eexists. split; reflexivity.
  - unfold astar.
    destruct (heuristic_total sqrt _ _ _ Hpos Hpos) as [h ->].
    cbn [mbind outcome_bind]. rewrite search_to_itself by auto.
    eexists. split; reflexivity.
Qed.

(** ** The loops finish within their fuel *)

Lemma reconstruct_finishes {key} (node_of : key -> string) adj start dom0
    (st : locals key) :
  sinv node_of adj start dom0 st ->
  ∀ fuel n acc l1 l2,
    l_visited st = l1 ++ n :: l2 -> (length l1 < fuel)%nat ->
    reconstruct fuel (l_previous st) (Some n) acc ≠ OutOfFuel.
Proof.
  intros Hs. induction fuel as [|fuel IH]; intros n acc l1 l2 Hvis Hlen;
    [lia|].
  simpl. case_bool_decide; [discriminate|].
  destruct (l_previous st !! n) as [u|] eqn:Hu.
  - pose proof (s_order _ _ _ _ _ Hs l1 n l2 u Hvis Hu) as Hin.
    apply list_elem_of_split in Hin as (l1a & l1b & ->).
    apply (IH u (n :: acc) l1a (l1b ++ n :: l2)).
    + rewrite Hvis, <- app_assoc. reflexivity.
    + rewrite length_app in Hlen. simpl in Hlen. lia.
  - rewrite reconstruct_None. discriminate.
Qed.

Lemma reconstruct_path_finishes {key} (node_of : key -> string) adj start
    dom0 (st : locals key) end_ :
  sinv node_of adj start dom0 st ->
  reconstruct_path st start end_ ≠ OutOfFuel.
Proof.
  intros Hs. unfold reconstruct_path. case_bool_decide; [|discriminate].
  cbn [reconstruct]. case_bool_decide; [discriminate|].
  destruct (l_previous st !! end_) as [u|] eqn:Hu.
  - destruct (s_prev _ _ _ _ _ Hs _ _ Hu) as [Hin _].
    apply list_elem_of_split in Hin as (l1 & l2 & Hvis).
    eapply reconstruct_finishes; [eassumption..|].
    rewrite Hvis, length_app. simpl. lia.
  - rewrite reconstruct_None. discriminate.
Qed.

Lemma search_finishes {key} set_iter (key_ltb : key -> key -> bool) node_of
    mk_key g start end_ k :
  (∀ d n k, mk_key d n = Return k -> node_of k = n) ->
  (∀ d n, mk_key d n ≠ OutOfFuel) ->
  node_of k = start ->
  search set_iter key_ltb node_of mk_key g start end_ (Return k) ≠ OutOfFuel.
Proof.
  intros Hnode Hfuel Hk.
  pose proof (while_pq_finishes set_iter key_ltb node_of mk_key (adj_list g)
                end_ Hfuel _ _ (init_measure (adj_list g) (g_nodes g)
                                  start k)) as Hw.
  destruct (while_pq set_iter key_ltb node_of mk_key
              (search_fuel (adj_list g)) (adj_list g) end_
              (init_locals (g_nodes g) start k)) as [st|e|] eqn:E;
    [|unfold search; cbn [mbind outcome_bind]; rewrite E; discriminate
     |contradiction].
  rewrite (search_eq _ _ _ _ _ _ _ _ _ E).
  eapply sinv_while in E; [|eassumption..|reflexivity].
  pose proof (reconstruct_path_finishes _ _ _ _ st end_ E) as Hr.
  destruct (reconstruct_path st start end_); [discriminate..|contradiction].
Qed.

(** X21.  The handler always answers, with a result or with an error:
    the loop of the search ends within the bound on its iterations,
    whatever the request. *)
Lemma calculate_route_finishes set_iter sqrt request :
  calculate_route set_iter sqrt request ≠ OutOfFuel.
Proof.
  unfold calculate_route, calculate_route_try, Graph_init,
    _build_adjacency_list.
  destruct (add_edges_outcome (weightType request) (edges request)
              (list_to_map (map (fun node => (node, [])) (nodes request))))
    as [[adj ->]|[k ->]]; [|discriminate].
  cbn [mbind outcome_bind].
  set (g := mkGraph _ _ _ adj).
  assert (Hrun : run_algorithm set_iter sqrt request g ≠ OutOfFuel).
  { unfold run_algorithm.
    destruct (String.eqb (algorithm request) "dijkstra").
    - apply search_finishes; [|discriminate|reflexivity].
      intros d n k H. injection H as <-. reflexivity.
    - destruct (String.eqb (algorithm request) "astar"); [|discriminate].
      unfold astar.
      destruct (heuristic sqrt (nodePositions request) (end_ request)
                  (start request)) as [h|e|] eqn:Eh.
      + apply search_finishes; [|  |reflexivity].
        * intros d n k. apply heuristic_key.
        * intros d n H.
          destruct (heuristic sqrt (nodePositions request) (end_ request) n)
            eqn:E; try discriminate.
          unfold heuristic, getitem in E.
          destruct (nodePositions request !! n); [|discriminate].
          destruct (nodePositions request !! end_ request); discriminate.
      + unfold search. discriminate.
      + unfold heuristic, getitem in Eh.
        destruct (nodePositions request !! start request); [|discriminate].
        destruct (nodePositions request !! end_ request); discriminate. }
  destruct (run_algorithm set_iter sqrt request g) as [[p steps]|e|];
    [|discriminate|contradiction].
  cbn [mbind outcome_bind]. destruct p; [discriminate|].
  destruct (totals _ _ _ _). discriminate.
Qed.

(** ** The adjacency lists, entry by entry *)

Lemma append_at_lookup adj k v adj' :
  append_at adj k v = Return adj' ->
  ∀ u, adj' !! u
       = (fun l => l ++ (if bool_decide (k = u) then [v] else []))
           <$> adj !! u.
Proof.
  intros H u. apply append_at_Return in H as (l & Hl & ->).
  case_bool_decide as Hk.
  - subst u. rewrite lookup_insert_eq, Hl. reflexivity.
  - rewrite lookup_insert_ne by assumption.
    destruct (adj !! u); simpl; [|reflexivity]. rewrite app_nil_r. reflexivity.
Qed.

Lemma add_edges_lookup weight_type es : ∀ adj adj',
  add_edges weight_type es adj = Return adj' ->
  ∀ u, adj' !! u = (fun l => l ++ entries_of weight_type es u) <$> adj !! u.
Proof.
  induction es as [|e es IH]; simpl; intros adj adj' H u.
  - injection H as <-. destruct (adj !! u); simpl; [|reflexivity].
    rewrite app_nil_r. reflexivity.
  - inv_bind H. rewrite (IH _ _ H u).
    rewrite (append_at_lookup _ _ _ _ Hget0 u).
    rewrite (append_at_lookup _ _ _ _ Hget u).
    destruct (adj !! u) as [l|]; simpl; [|reflexivity].
    unfold entries_of_edge. rewrite <- !app_assoc. reflexivity.
Qed.

(** X1.  A graph that was built lists, for each declared node, the
    entries of the edges that touch it, in the order of the edges (for
    each edge its [from] end first), with the weight of the policy; it has
    no list for any other label. *)
Theorem adjacency_lists_follow_edges nodes edges weight_type g :
  Graph_init nodes edges weight_type = Return g ->
  ∀ u, adj_list g !! u
       = if bool_decide (u ∈ nodes)
         then Some (entries_of weight_type edges u) else None.
Proof.
  unfold Graph_init, _build_adjacency_list. intros H u. inv_bind H.
  injection H as <-. simpl. rewrite (add_edges_lookup _ _ _ _ Hget u).
  case_bool_decide as Hu.
  - assert (Hd : u ∈ dom (list_to_map (map (fun node => (node, []))
                                           nodes)
                          : gmap string (list adj_entry))).
    { rewrite dom_initial_adj. apply elem_of_list_to_set. assumption. }
    apply elem_of_dom in Hd as [l Hl]. rewrite Hl. simpl.
    apply lookup_initial in Hl as ->. reflexivity.
  - destruct (_ !! u) as [l|] eqn:Hl; [|reflexivity].
    exfalso. apply Hu. apply elem_of_dom_2 in Hl.
    rewrite dom_initial_adj in Hl. apply elem_of_list_to_set in Hl.
    assumption.
Qed.

Lemma adjacency_lists_follow_edges_witness :
  adj_list (built (nodes square) (edges square) "distance") !! "A"
  = Some [("B", 1, mkEdge "A" "B" 1 0); ("D", 5, mkEdge "A" "D" 5 0)].
Proof.
  refine (adjacency_lists_follow_edges (nodes square) (edges square)
            "distance" _ _ "A").
  vm_compute. reflexivity.
Defined.

(** X2.  A graph that was built is undirected: an entry leads from [u] to
    [v] exactly when an entry of the same edge and weight leads from [v]
    to [u]; and every entry joins two declared nodes. *)
Theorem adjacency_is_symmetric nodes edges weight_type g :
  Graph_init nodes edges weight_type = Return g ->
  ∀ u v w edge,
    (has_entry (adj_list g) u (v, w, edge)
     <-> has_entry (adj_list g) v (u, w, edge)) ∧
    (has_entry (adj_list g) u (v, w, edge) -> u ∈ nodes ∧ v ∈ nodes).
Proof.
  intros H u v w edge.
  destruct (Graph_init_Return _ _ _ _ H) as (_ & _ & _ & _ & Hends & Hent).
  split.
  - rewrite !Hent. unfold links. tauto.
  - intros He. apply Hent in He as (Hin & _ & Hl).
    destruct (Hends _ Hin) as [Hf Ht].
    destruct Hl as [[<- <-]|[<- <-]]; auto.
Qed.

Lemma adjacency_is_symmetric_witness :
  has_entry (adj_list (built (nodes square) (edges square) "distance"))
            "D" ("A", 5, mkEdge "A" "D" 5 0).
Proof.
  refine (proj1 (proj1 (adjacency_is_symmetric (nodes square) (edges square)
                          "distance" _ _ "A" "D" 5 (mkEdge "A" "D" 5 0))) _).
  - vm_compute. reflexivity.
  - eexists. split; [vm_compute; reflexivity|]. right. left.
Defined.

Lemma add_edges_Raise weight_type es : ∀ adj err,
  add_edges weight_type es adj = Raise err ->
  ∃ edge k, edge ∈ es ∧ err = KeyError k ∧ (k ∉ dom adj) ∧
            (k = from_ edge ∨ k = to edge).
Proof.
  induction es as [|e es IH]; simpl; intros adj err H; [discriminate|].
  destruct (append_at adj (from_ e) _) as [adj1|e1|] eqn:E1; simpl in H.
  - apply append_at_spec in E1 as (_ & Hd1 & _).
    destruct (append_at adj1 (to e) _) as [adj2|e2|] eqn:E2; simpl in H.
    + apply append_at_spec in E2 as (_ & Hd2 & _).
      apply IH in H as (edge & k & Hin & -> & Hk & Hor).
      exists edge, k. rewrite Hd2, Hd1 in Hk.
      split; [right; assumption|]. auto.
    + injection H as <-. unfold append_at, getitem in E2.
      destruct (adj1 !! to e) eqn:Hl; simpl in E2; [discriminate|].
      injection E2 as <-. exists e, (to e). split; [left|].
      split; [reflexivity|]. split; [|auto].
      rewrite <- Hd1. apply not_elem_of_dom. assumption.
    + discriminate.
  - injection H as <-. unfold append_at, getitem in E1.
    destruct (adj !! from_ e) eqn:Hl; simpl in E1; [discriminate|].
    injection E1 as <-. exists e, (from_ e). split; [left|].
    split; [reflexivity|]. split; [|auto].
    apply not_elem_of_dom. assumption.
  - discriminate.
Qed.

(** X3.  Building a graph succeeds exactly when every edge joins two
    declared nodes; otherwise it raises [KeyError] for an end of an edge
    that is not a declared node. *)
Theorem graph_needs_known_endpoints nodes edges weight_type :
  (forallb (known_endpoints nodes) edges = true <->
   ∃ g, Graph_init nodes edges weight_type = Return g) ∧
  (∀ err, Graph_init nodes edges weight_type = Raise err ->
     ∃ edge k, edge ∈ edges ∧ err = KeyError k ∧ (k ∉ nodes) ∧
               (k = from_ edge ∨ k = to edge)).
Proof.
  split; [split|].
  - apply Graph_init_total.
  - intros [g H]. apply Graph_init_Return in H as (_ & _ & _ & _ & Hends & _).
    apply forallb_forall. intros edge Hin. apply list_elem_of_In in Hin.
    destruct (Hends _ Hin). unfold known_endpoints.
    rewrite !bool_decide_eq_true_2 by assumption. reflexivity.
  - unfold Graph_init, _build_adjacency_list. intros err H.
    destruct (add_edges weight_type edges _) as [adj|e|] eqn:E;
      simpl in H; try discriminate.
    injection H as <-. apply add_edges_Raise in E
      as (edge & k & Hin & -> & Hk & Hor).
    exists edge, k. rewrite dom_initial_adj in Hk.
    rewrite elem_of_list_to_set in Hk. auto.
Qed.

(** ** How a search ends *)

Section Run.
#[local] Arguments relax : simpl never.
Variable set_iter : list string -> list string.
Context {key : Type}.
Variable key_ltb : key -> key -> bool.
Variable node_of : key -> string.
Variable mk_key : float -> string -> outcome key.
Variable adj : gmap string (list adj_entry).
Variable nodes : list string.
Variable start : string.
Variable end_ : string.
Variable k0 : key.
Hypothesis mk_key_node : ∀ d n k, mk_key d n = Return k -> node_of k = n.
Hypothesis k0_node : node_of k0 = start.

Abbreviation finv_r := (finv set_iter node_of nodes start end_ k0).

(** The inner loop touches neither the settled nodes nor the steps. *)
Lemma relax_all_frame cur entries : ∀ st st' : locals key,
  relax_all mk_key cur st entries = Return st' ->
  l_visited st' = l_visited st ∧ l_steps st' = l_steps st ∧
  ∀ n, n ∈ l_visited st ->
       l_distances st' !! n = l_distances st !! n ∧
       l_previous st' !! n = l_previous st !! n.
Proof.
  induction entries as [|[[v w] e] rest IH]; simpl; intros st st' H.
  - injection H as <-. auto.
  - inv_bind H. apply IH in H as (Hv & Hs & Hd).
    apply relax_Return in Hget
      as [[_ ->]|(Hnv & dc & dn & _ & _ & [[_ ->]|(_ & k & _ & ->)])];
      [auto|auto|].
    simpl in *. split; [assumption|]. split; [assumption|].
    intros n Hn. destruct (Hd n Hn) as [-> ->].
    assert (n ≠ v) by (intros ->; auto).
    rewrite !lookup_insert_ne by congruence. auto.
Qed.

Lemma finv_relax_all cur entries : ∀ st st' : locals key,
  st ≠ init_locals nodes start k0 ->
  finv_r st -> relax_all mk_key cur st entries = Return st' ->
  st' ≠ init_locals nodes start k0 ∧ finv_r st'.
Proof.
  induction entries as [|[[v w] e] rest IH]; simpl; intros st st' Hne Hf H.
  - injection H as <-. auto.
  - inv_bind H. apply relax_Return in Hget
      as [[_ ->]|(Hnv & dc & dn & _ & _ & [[_ ->]|(_ & k & Hk & ->)])];
      [eauto|eauto|].
    apply mk_key_node in Hk. eapply IH; [| |eassumption].
    + destruct Hf as [_ _ [?|[r Hr]]]; [contradiction|].
      intros Heq. apply (f_equal l_steps) in Heq. simpl in Heq.
      rewrite Hr in Heq. discriminate.
    + destruct Hf as [Hend Hfront Hfirst]. split; simpl.
      * assumption.
      * intros n q Hn. destruct (decide (n = v)) as [->|Hnv'].
        -- right. exists k. split; [|assumption].
           apply elem_of_app. right. left.
        -- rewrite lookup_insert_ne in Hn by congruence.
           destruct (Hfront n q Hn) as [?|(k' & Hk' & Hnode)]; [auto|].
           right. exists k'. split; [|assumption]. apply elem_of_app. auto.
      * right. destruct Hfirst as [?|?]; [contradiction|assumption].
Qed.

(** At the exit of [while pq:]: the structural invariant, the way the
    loop ended, and the first step. *)
Lemma ended_while fuel st :
  while_pq set_iter key_ltb node_of mk_key fuel adj end_
           (init_locals nodes start k0) = Return st ->
  sinv node_of adj start ({[start]} ∪ list_to_set nodes) st ∧
  ended set_iter end_ (l_distances st) (l_previous st) (l_visited st)
        (l_steps st) ∧
  ∃ rest, l_steps st
          = snapshot set_iter start [start] (initial_distances nodes start) ∅
            :: rest.
Proof.
  apply (while_pq_rule _ _ _ _ _ _
           (fun st => sinv node_of adj start ({[start]} ∪ list_to_set nodes) st
                      ∧ finv_r st)
           (fun st =>
              sinv node_of adj start ({[start]} ∪ list_to_set nodes) st ∧
              ended set_iter end_ (l_distances st) (l_previous st)
                    (l_visited st) (l_steps st) ∧
              ∃ rest, l_steps st
                      = snapshot set_iter start [start]
                                 (initial_distances nodes start) ∅ :: rest)).
  - intros st1 [Hs [Hend Hfront Hfirst]] Hpq. split; [assumption|]. split.
    + left. split; [assumption|]. intros n q Hn.
      destruct (Hfront n q Hn) as [?|(k & Hk & _)]; [assumption|].
      rewrite Hpq in Hk. inversion Hk.
    + destruct Hfirst as [->|?]; [discriminate | assumption].
  - intros st1 k pq [Hs [Hend Hfront Hfirst]] Hpop Hv. split.
    + eapply sinv_skipped; eassumption.
    + apply heappop_perm in Hpop. split; simpl.
      * assumption.
      * intros n q Hn.
        destruct (Hfront n q Hn) as [?|(k' & Hk' & Hnode)]; [auto|].
        rewrite Hpop in Hk'. apply elem_of_cons in Hk' as [->|Hk'].
        -- left. congruence.
        -- right. eauto.
      * right. destruct Hfirst as [->|?]; [|assumption].
        exfalso. simpl in *. inversion Hv.
  - intros st1 k pq [Hs [Hend Hfront Hfirst]] Hpop Hv He.
    split; [eapply sinv_settled; eassumption|]. split.
    + right. exists (l_visited st1), (l_steps st1). simpl. rewrite He.
      auto.
    + destruct Hfirst as [->|[rest Hrest]]; simpl.
      * simpl in Hpop. injection Hpop as <- <-. rewrite k0_node.
        eexists. reflexivity.
      * rewrite Hrest. eexists. reflexivity.
  - intros st1 k pq entries st2 [Hs [Hend Hfront Hfirst]] Hpop Hv He Hadj Hr.
    pose proof (sinv_settled set_iter key_ltb node_of adj start _ st1 k pq
                  Hs Hpop Hv) as Hs1.
    assert (Hf1 : settled set_iter st1 (node_of k) pq
                  ≠ init_locals nodes start k0
                  ∧ finv_r (settled set_iter st1 (node_of k) pq)).
    { split.
      - intros Heq. apply (f_equal l_visited) in Heq. simpl in Heq.
        destruct (l_visited st1); discriminate.
      - pose proof (heappop_perm _ _ _ _ Hpop) as Hperm. split; simpl.
        + intros H. apply elem_of_app in H as [?|H]; [auto|].
          apply list_elem_of_singleton in H. congruence.
        + intros n q Hn.
          destruct (Hfront n q Hn) as [?|(k' & Hk' & Hnode)].
          * left. apply elem_of_app. auto.
          * rewrite Hperm in Hk'. apply elem_of_cons in Hk' as [->|Hk'].
            -- left. apply elem_of_app. right. rewrite Hnode. left.
            -- right. eauto.
        + right. destruct Hfirst as [->|[rest Hrest]]; simpl.
          * simpl in Hpop. injection Hpop as <- <-. rewrite k0_node.
            eexists. reflexivity.
          * rewrite Hrest. eexists. reflexivity. }
    destruct Hf1 as [Hne1 Hf1]. split.
    + eapply sinv_relax_all with (done := []) in Hr as [? _];
        try eassumption.
      simpl. apply elem_of_app. right. left.
    + eapply finv_relax_all in Hr as [_ ?]; eassumption.
  - split; [apply sinv_init; [assumption|reflexivity]|].
    split; simpl; [intros H; inversion H| |left; reflexivity].
    intros n q Hn. right. exists k0. split; [left|].
    destruct (decide (n = start)) as [->|Hne]; [assumption|].
    rewrite lookup_insert_ne in Hn by congruence.
    apply lookup_initial in Hn. discriminate.
Qed.

End Run.

Lemma search_tables {key} set_iter (key_ltb : key -> key -> bool) node_of
    mk_key g start end_ k p steps :
  (∀ d n k, mk_key d n = Return k -> node_of k = n) ->
  node_of k = start ->
  search set_iter key_ltb node_of mk_key g start end_ (Return k)
  = Return (p, steps) ->
  ∃ dist prev vis, tables_ok set_iter g start end_ p steps dist prev vis.
Proof.
  intros Hmk Hk H.
  apply search_Return in H as (k' & st & Hk' & Hfin & Hrec & ->).
  injection Hk' as <-. unfold final_state in Hfin.
  eapply ended_while in Hfin as (Hs & Hend & Hfirst); [|eassumption..].
  exists (l_distances st), (l_previous st), (l_visited st).
  destruct Hs. split; assumption.
Qed.

(** The tables of every run. *)
Lemma search_run_tables set_iter sqrt g start end_ p steps :
  search_run set_iter sqrt g start end_ (p, steps) ->
  ∃ dist prev vis, tables_ok set_iter g start end_ p steps dist prev vis.
Proof.
  intros [H|[pos H]].
  - unfold dijkstra in H. eapply search_tables; [| |eassumption].
    + intros d n k E. injection E as <-. reflexivity.
    + reflexivity.
  - unfold astar in H.
    destruct (heuristic sqrt pos end_ start) as [h|e|] eqn:Eh;
      try (unfold search in H; discriminate).
    eapply search_tables; [| |eassumption].
    + intros d n k. apply heuristic_key.
    + reflexivity.
Qed.

(** ** The path and the steps of a finished search *)

Section Tables.
Variable set_iter : list string -> list string.
Variable g : Graph.
Variables start end_ : string.
Variable p : list string.
Variable steps : list PathStep.
Variable dist : gmap string float.
Variable prev : gmap string string.
Variable vis : list string.
Hypothesis T : tables_ok set_iter g start end_ p steps dist prev vis.

(** When the path is rebuilt, [end] has been settled. *)
Lemma tables_end_settled :
  is_Some (prev !! end_) ∨ start = end_ -> end_ ∈ vis.
Proof.
  intros Hcond.
  assert (Hd : ∃ q, dist !! end_ = Some (Fin q)).
  { destruct Hcond as [[u Hu]| <-].
    - destruct (k_prev _ _ _ _ _ _ _ _ _ T _ _ Hu)
        as (_ & ? & ? & ? & _ & _ & H). eauto.
    - exists 0. apply (k_start_dist _ _ _ _ _ _ _ _ _ T). }
  destruct Hd as [q Hq].
  destruct (k_ended _ _ _ _ _ _ _ _ _ T) as [[_ Hall]|(v0 & s0 & -> & _ & _)].
  - eauto.
  - apply elem_of_app. right. left.
Qed.

(** A settled [end] is the last node settled, and the last step is its
    step, which shows the final tables. *)
Lemma tables_last_step :
  end_ ∈ vis ->
  ∃ vis0 steps0,
    vis = vis0 ++ [end_] ∧ (end_ ∉ vis0) ∧
    steps = steps0 ++ [snapshot set_iter end_ vis dist prev].
Proof.
  intros Hin.
  destruct (k_ended _ _ _ _ _ _ _ _ _ T) as [[Hn _]|H]; [contradiction|].
  exact H.
Qed.

(** Walking back from a settled node: the rebuilt path has no
    repetition, holds settled nodes only, and ends with what was there. *)
Lemma tables_chain : ∀ fuel n acc l1 l2 q,
  vis = l1 ++ n :: l2 -> NoDup acc -> (∀ x, x ∈ acc -> x ∈ l2) ->
  reconstruct fuel prev (Some n) acc = Return q ->
  NoDup q ∧ (∀ x, x ∈ q -> x ∈ vis) ∧
  (∃ pre, q = pre ++ acc) ∧ (n ≠ "" -> ∃ pre, q = pre ++ n :: acc).
Proof.
  pose proof (k_nodup _ _ _ _ _ _ _ _ _ T) as Hnd.
  assert (Hstop : ∀ n acc l1 l2, vis = l1 ++ n :: l2 -> NoDup acc ->
            (∀ x, x ∈ acc -> x ∈ l2) ->
            NoDup acc ∧ (∀ x, x ∈ acc -> x ∈ vis) ∧ (∃ pre, acc = pre ++ acc)).
  { intros n acc l1 l2 -> Hacc Hsub. split; [assumption|]. split.
    - intros x Hx. apply elem_of_app. right. right. auto.
    - exists []. reflexivity. }
  assert (Hpush : ∀ n acc l1 l2, vis = l1 ++ n :: l2 -> NoDup acc ->
            (∀ x, x ∈ acc -> x ∈ l2) -> NoDup (n :: acc)).
  { intros n acc l1 l2 Hvis Hacc Hsub. constructor; [|assumption].
    intros Hin. apply Hsub in Hin. rewrite Hvis in Hnd.
    apply NoDup_app in Hnd as (_ & _ & Hnd).
    apply NoDup_cons in Hnd as [Hnd _]. contradiction. }
  induction fuel as [|fuel IH]; intros n acc l1 l2 q Hvis Hacc Hsub H;
    simpl in H.
  - case_bool_decide as He; [|discriminate]. injection H as <-.
    destruct (Hstop _ _ _ _ Hvis Hacc Hsub) as (? & ? & ?).
    repeat split; try assumption. intros. contradiction.
  - case_bool_decide as He.
    { injection H as <-.
      destruct (Hstop _ _ _ _ Hvis Hacc Hsub) as (? & ? & ?).
      repeat split; try assumption. intros. contradiction. }
    destruct (prev !! n) as [u|] eqn:Hu.
    + pose proof (k_order _ _ _ _ _ _ _ _ _ T l1 n l2 u Hvis Hu) as Hin.
      apply list_elem_of_split in Hin as (l1a & l1b & ->).
      eapply (IH u (n :: acc) l1a (l1b ++ n :: l2)) in H
        as (Hq & Hsubq & [pre Hpre] & _).
      * split; [assumption|]. split; [assumption|]. split.
        -- exists (pre ++ [n]). rewrite <- app_assoc. assumption.
        -- intros _. eauto.
      * rewrite Hvis, <- app_assoc. reflexivity.
      * eapply Hpush; eassumption.
      * intros x Hx. apply elem_of_app. right.
        apply elem_of_cons in Hx as [->|Hx]; [left | right; auto].
    + rewrite reconstruct_None in H. injection H as <-.
      split; [eapply Hpush; eassumption|]. split.
      * intros x Hx. apply elem_of_cons in Hx as [->|Hx].
        -- rewrite Hvis. apply elem_of_app. right. left.
        -- rewrite Hvis. apply elem_of_app. right. right. auto.
      * split; [exists [n]; reflexivity|]. intros _. exists []. reflexivity.
Qed.

(** The returned path: without repetition, among the settled nodes; and
    when it is not empty, [end] has a label, is settled, and is the last
    node of the path. *)
Lemma tables_path :
  NoDup p ∧ (∀ x, x ∈ p -> x ∈ vis) ∧
  (p ≠ [] -> end_ ≠ "" ∧ end_ ∈ vis ∧ last p = Some end_) ∧
  (end_ ≠ "" -> end_ ∈ vis -> p ≠ []).
Proof.
  pose proof (k_path _ _ _ _ _ _ _ _ _ T) as Hp.
  case_bool_decide as Hcond.
  - pose proof (tables_end_settled Hcond) as Hend.
    destruct (tables_last_step Hend) as (vis0 & steps0 & Hvis & _ & _).
    rewrite Hvis in Hp at 1.
    assert (Hvis' : vis = vis0 ++ end_ :: []) by exact Hvis.
    destruct (tables_chain _ _ _ _ _ _ Hvis' (NoDup_nil_2)
                (fun x (H : x ∈ []) => H) Hp)
      as (Hnd & Hsub & _ & Hlast).
    split; [assumption|]. split; [assumption|]. split.
    + intros Hne. assert (He : end_ ≠ "").
      { intros ->. simpl in Hp. injection Hp as <-. congruence. }
      split; [assumption|]. split; [assumption|].
      destruct (Hlast He) as [pre ->]. apply last_snoc.
    + intros He _. destruct (Hlast He) as [pre ->].
      destruct pre; discriminate.
  - injection Hp as <-. split; [constructor|].
    split; [intros x Hx; inversion Hx|]. split; [congruence|].
    intros _ Hend. exfalso. apply Hcond.
    destruct (k_vis _ _ _ _ _ _ _ _ _ T _ Hend) as [[->|?] _]; auto.
Qed.

(** Walking back from a node with a cost builds a route whose weight,
    added to the cost of the node, is the cost of [end]; when the path
    begins at [start] its weight is that cost. *)
Lemma tables_route edges weight_type de :
  (∀ u v w e, has_entry (adj_list g) u (v, w, e) ->
     e ∈ edges ∧ w = _get_weight weight_type e ∧ links e u v) ->
  ∀ fuel n acc c_acc dn q,
    route edges weight_type (n :: acc) c_acc ->
    dist !! n = Some (Fin dn) -> dn + c_acc == de ->
    (∀ y rest, acc = y :: rest -> prev !! y = Some n) ->
    reconstruct fuel prev (Some n) acc = Return q ->
    head q = Some start ->
    ∃ c, route edges weight_type q c ∧ c == de.
Proof.
  intros Hadj.
  assert (Hstop : ∀ n acc, (∀ y rest, acc = y :: rest -> prev !! y = Some n) ->
                           head acc = Some start -> False).
  { intros n acc Hchain Hhd. destruct acc as [|y rest]; [discriminate|].
    injection Hhd as ->. specialize (Hchain start rest eq_refl).
    rewrite (k_start_prev _ _ _ _ _ _ _ _ _ T) in Hchain. discriminate. }
  induction fuel as [|fuel IH]; intros n acc c_acc dn q Hr Hdn Hsum
    Hchain H Hhd; simpl in H.
  - case_bool_decide; [|discriminate]. injection H as <-.
    exfalso. eauto.
  - case_bool_decide as Hempty.
    { injection H as <-. exfalso. eauto. }
    destruct (prev !! n) as [u|] eqn:Hu.
    + destruct (k_prev _ _ _ _ _ _ _ _ _ T n u Hu)
        as (_ & du & w & e & Hdu & Hent & Hdn').
      destruct (Hadj _ _ _ _ Hent) as (Hin & -> & Hl).
      rewrite Hdn in Hdn'. injection Hdn' as ->.
      eapply (IH u (n :: acc)); try eassumption.
      * eapply route_cons; eassumption.
      * lra.
      * intros y rest Heq. injection Heq as <- <-. assumption.
    + rewrite reconstruct_None in H. injection H as <-.
      simpl in Hhd. injection Hhd as ->.
      rewrite (k_start_dist _ _ _ _ _ _ _ _ _ T) in Hdn. injection Hdn as <-.
      exists c_acc. split; [assumption | lra].
Qed.

(** When no label is empty, the rebuilt path begins at [start]. *)
Lemma tables_head :
  start ≠ "" -> "" ∉ g_nodes g ->
  ∀ fuel n acc q,
    n = start ∨ is_Some (prev !! n) -> is_Some (dist !! n) ->
    reconstruct fuel prev (Some n) acc = Return q ->
    head q = Some start.
Proof.
  intros Hstart Hnodes.
  assert (Hne : ∀ n, is_Some (dist !! n) -> n ≠ "").
  { intros n Hn ->. apply elem_of_dom in Hn.
    rewrite (k_dom _ _ _ _ _ _ _ _ _ T) in Hn.
    rewrite elem_of_union, elem_of_singleton, elem_of_list_to_set in Hn.
    destruct Hn; [congruence | contradiction]. }
  induction fuel as [|fuel IH]; intros n acc q Hn Hd H; simpl in H;
    rewrite (bool_decide_eq_false_2 _ (Hne n Hd)) in H; [discriminate|].
  destruct (prev !! n) as [u|] eqn:Hu.
  - destruct (k_prev _ _ _ _ _ _ _ _ _ T n u Hu) as [Hvis _].
    destruct (k_vis _ _ _ _ _ _ _ _ _ T u Hvis) as [Hreach [d Hdu]].
    eapply IH; [| |eassumption]; eauto.
  - rewrite reconstruct_None in H. injection H as <-.
    destruct Hn as [->|[? ?]]; [reflexivity | discriminate].
Qed.

End Tables.

(** ** Properties of every run *)

(** X4.  The steps of every run begin with the step of [start]: no
    predecessor yet, cost 0 for [start] and the sentinel for every other
    declared node. *)
Theorem trace_begins_at_start set_iter sqrt g start end_ p steps :
  search_run set_iter sqrt g start end_ (p, steps) ->
  ∃ s rest,
    steps = s :: rest ∧ current s = start ∧ visited s = set_iter [start] ∧
    previous s = ∅ ∧ distances s !! start = Some (Fin 0) ∧
    ∀ n, n ∈ g_nodes g -> n ≠ start -> distances s !! n = Some (Fin 999999).
Proof.
  intros Hrun. apply search_run_tables in Hrun as (dist & prev & vis & T).
  destruct (k_first _ _ _ _ _ _ _ _ _ T) as [rest ->].
  eexists _, rest. split; [reflexivity|]. simpl.
  split; [reflexivity|]. split; [reflexivity|]. split; [reflexivity|].
  unfold initial_distances. split.
  - rewrite lookup_fmap, lookup_insert_eq. reflexivity.
  - intros n Hn Hne. rewrite lookup_fmap, lookup_insert_ne by congruence.
    assert (Hd : n ∈ dom (list_to_map (map (fun node => (node, Inf))
                                           (g_nodes g))
                          : gmap string float)).
    { rewrite dom_initial_adj. apply elem_of_list_to_set. assumption. }
    apply elem_of_dom in Hd as [v Hv]. rewrite Hv.
    apply lookup_initial in Hv as ->. reflexivity.
Qed.

Lemma trace_begins_at_start_witness :
  ∃ s rest,
    run_steps (dijkstra reverse_order heavy_graph "A" "C") = s :: rest ∧
    current s = "A" ∧ distances s !! "B" = Some (Fin 999999).
Proof.
  destruct (trace_begins_at_start reverse_order sqrt_micro heavy_graph
              "A" "C" ["A"; "B"; "C"]
              (run_steps (dijkstra reverse_order heavy_graph "A" "C")))
    as (s & rest & H1 & H2 & _ & _ & _ & H3).
  - left. vm_compute. reflexivity.
  - exists s, rest. split; [assumption|]. split; [assumption|].
    apply H3; [vm_compute; right; left | discriminate].
Defined.

(** X5.  A run stops as soon as [end] is settled: a step whose current
    node is [end] is the last step.  And, [end] having a label, the
    returned path is non-empty exactly when [end] was settled. *)
Theorem trace_ends_at_end set_iter sqrt g start end_ p steps :
  search_run set_iter sqrt g start end_ (p, steps) ->
  (∀ i s, steps !! i = Some s -> current s = end_ -> S i = length steps) ∧
  (end_ ≠ "" -> (p ≠ [] <-> end_ ∈ map current steps)).
Proof.
  intros Hrun. apply search_run_tables in Hrun as (dist & prev & vis & T).
  pose proof (k_steps _ _ _ _ _ _ _ _ _ T) as Hsteps.
  pose proof (k_nodup _ _ _ _ _ _ _ _ _ T) as Hnd.
  destruct (tables_path _ _ _ _ _ _ _ _ _ T) as (_ & _ & Hne & Hsome).
  split.
  - intros i s Hi Hc.
    assert (Hin : end_ ∈ vis).
    { rewrite <- Hsteps, <- Hc. apply list_elem_of_fmap. exists s.
      split; [reflexivity|]. eapply list_elem_of_lookup_2. eassumption. }
    destruct (tables_last_step _ _ _ _ _ _ _ _ _ T Hin)
      as (vis0 & steps0 & Hvis & _ & _).
    assert (Hi' : vis !! i = Some end_).
    { rewrite <- Hsteps, <- Hc.
      change (map current steps) with (current <$> steps).
      rewrite list_lookup_fmap, Hi. reflexivity. }
    assert (Hl : vis !! length vis0 = Some end_).
    { rewrite Hvis. apply list_lookup_middle. reflexivity. }
    pose proof (NoDup_lookup _ _ _ _ Hnd Hi' Hl) as ->.
    rewrite <- (length_map current steps), Hsteps, Hvis, length_app.
    simpl. lia.
  - intros He. rewrite Hsteps. split.
    + intros Hp. apply Hne in Hp. tauto.
    + auto.
Qed.

Lemma trace_ends_at_end_witness :
  ["A"; "B"] ≠ [] <->
  "B" ∈ map current (run_steps (dijkstra reverse_order pair_graph "A" "B")).
Proof.
  refine (proj2 (trace_ends_at_end reverse_order sqrt_micro pair_graph
                   "A" "B" ["A"; "B"] _ _) _).
  - left. vm_compute. reflexivity.
  - discriminate.
Defined.

(** X6.  The path returned by a run has no repeated node, passes only
    through nodes that were settled, so that it is no longer than the list
    of steps, and, when not empty, ends at [end]. *)
Theorem path_visits_settled_nodes set_iter sqrt g start end_ p steps :
  search_run set_iter sqrt g start end_ (p, steps) ->
  NoDup p ∧ (∀ n, n ∈ p -> n ∈ map current steps) ∧
  (length p <= length steps)%nat ∧ (p ≠ [] -> last p = Some end_).
Proof.
  intros Hrun. apply search_run_tables in Hrun as (dist & prev & vis & T).
  pose proof (k_steps _ _ _ _ _ _ _ _ _ T) as Hsteps.
  destruct (tables_path _ _ _ _ _ _ _ _ _ T) as (Hnd & Hsub & Hne & _).
  rewrite Hsteps. split; [assumption|]. split; [assumption|]. split.
  - rewrite <- (length_map current steps), Hsteps.
    apply submseteq_length, NoDup_submseteq; assumption.
  - intros Hp. apply Hne in Hp. tauto.
Qed.

Lemma path_visits_settled_nodes_witness :
  NoDup ["A"; "B"; "C"; "D"].
Proof.
  refine (proj1 (path_visits_settled_nodes reverse_order sqrt_micro
                   (built (nodes square) (edges square) "distance")
                   "A" "D" ["A"; "B"; "C"; "D"] _ _)).
  left. vm_compute. reflexivity.
Defined.



(** X8.  When neither [start] nor any declared node has the empty label,
    a non-empty path returned by a run begins at [start]. *)
Theorem path_begins_at_start set_iter sqrt g start end_ p steps :
  search_run set_iter sqrt g start end_ (p, steps) ->
  start ≠ "" -> "" ∉ g_nodes g -> p ≠ [] ->
  head p = Some start.
Proof.
  intros Hrun Hstart Hnodes Hp.
  apply search_run_tables in Hrun as (dist & prev & vis & T).
  destruct (tables_path _ _ _ _ _ _ _ _ _ T) as (_ & _ & Hne & _).
  destruct (Hne Hp) as (He & Hin & _).
  destruct (k_vis _ _ _ _ _ _ _ _ _ T _ Hin) as [Hcond [de Hde]].
  pose proof (k_path _ _ _ _ _ _ _ _ _ T) as Hrec.
  rewrite bool_decide_eq_true_2 in Hrec by (destruct Hcond; auto).
  eapply (tables_head _ _ _ _ _ _ _ _ _ T Hstart Hnodes); [| |eassumption].
  - destruct Hcond as [->|?]; auto.
  - eauto.
Qed.

Lemma path_begins_at_start_witness :
  head ["A"; "B"; "C"; "D"] = Some "A".
Proof.
  refine (path_begins_at_start reverse_order sqrt_micro
            (built (nodes square) (edges square) "distance")
            "A" "D" ["A"; "B"; "C"; "D"] _ _ _ _ _).
  - left. vm_compute. reflexivity.
  - discriminate.
  - vm_compute. intros H. repeat (apply elem_of_cons in H as [H|H];
      [discriminate|]). inversion H.
  - discriminate.
Defined.

(** ** Predecessors in the steps *)

Section Pred.
Variable set_iter : list string -> list string.
Context {key : Type}.
Variable key_ltb : key -> key -> bool.
Variable node_of : key -> string.
Variable mk_key : float -> string -> outcome key.
Variable adj : gmap string (list adj_entry).
Variable nodes : list string.
Variable start : string.
Variable end_ : string.
Variable k0 : key.
Hypothesis mk_key_node : ∀ d n k, mk_key d n = Return k -> node_of k = n.
Hypothesis k0_node : node_of k0 = start.

Abbreviation sinv_p :=
  (sinv node_of adj start ({[start]} ∪ list_to_set nodes)).

Abbreviation pinv := (pinv_of start).

Lemma pinv_settled (st : locals key) k pq :
  sinv_p st -> pinv st ->
  heappop key_ltb (l_pq st) = Some (k, pq) ->
  pinv (settled set_iter st (node_of k) pq).
Proof.
  intros Hs Hp Hpop i s Hi. simpl in *.
  pose proof (s_steps _ _ _ _ _ Hs) as Hlen.
  apply (f_equal length) in Hlen. rewrite length_map in Hlen.
  apply lookup_app_Some in Hi as [Hi|[Hge Hi]].
  - rewrite take_app_le by (apply lookup_lt_Some in Hi; lia). auto.
  - apply list_lookup_singleton_Some in Hi as [Hi <-].
    assert (i = length (l_visited st)) as -> by lia.
    rewrite take_app_length. split; simpl.
    + apply heappop_perm in Hpop.
      apply (s_pq _ _ _ _ _ Hs k). rewrite Hpop. left.
    + intros n u Hu. apply (s_prev _ _ _ _ _ Hs) in Hu. tauto.
Qed.

Lemma pred_while fuel st :
  while_pq set_iter key_ltb node_of mk_key fuel adj end_
           (init_locals nodes start k0) = Return st ->
  pinv st.
Proof.
  intros H.
  cut (sinv_p st ∧ pinv st); [tauto|]. revert H.
  apply (while_pq_rule _ _ _ _ _ _ (fun st => sinv_p st ∧ pinv st)
                                   (fun st => sinv_p st ∧ pinv st)).
  - auto.
  - intros st1 k pq [Hs Hp] Hpop Hv. split.
    + eapply sinv_skipped; eassumption.
    + exact Hp.
  - intros st1 k pq [Hs Hp] Hpop Hv _. split.
    + eapply sinv_settled; eassumption.
    + eapply pinv_settled; eassumption.
  - intros st1 k pq entries st2 [Hs Hp] Hpop Hv _ Hadj Hr. split.
    + eapply sinv_relax_all with (done := []) in Hr as [? _];
        try eassumption.
      * eapply sinv_settled; eassumption.
      * simpl. apply elem_of_app. right. left.
    + apply relax_all_frame in Hr as (Hvis & Hsteps & _).
      unfold pinv_of. rewrite Hvis, Hsteps.
      eapply pinv_settled; eassumption.
  - split; [apply sinv_init; [assumption|reflexivity]|].
    intros i s Hi. destruct i; discriminate.
Qed.

End Pred.

Lemma search_pred {key} set_iter (key_ltb : key -> key -> bool) node_of
    mk_key g start end_ k p steps :
  (∀ d n k, mk_key d n = Return k -> node_of k = n) ->
  node_of k = start ->
  search set_iter key_ltb node_of mk_key g start end_ (Return k)
  = Return (p, steps) ->
  ∀ i s, steps !! i = Some s ->
         step_pred start (map current (take i steps)) s.
Proof.
  intros Hmk Hk H.
  apply search_Return in H as (k' & st & Hk' & Hfin & _ & ->).
  injection Hk' as <-. unfold final_state in Hfin.
  pose proof (pred_while _ _ _ _ _ _ _ _ _ Hmk Hk _ _ Hfin) as Hp.
  eapply sinv_while in Hfin; [|eassumption..|reflexivity].
  intros i s Hi. rewrite <- firstn_map, (s_steps _ _ _ _ _ Hfin).
  apply Hp. assumption.
Qed.

(** X9.  In every step of every run the current node is [start] or has a
    predecessor, and every predecessor that the step records is a node
    settled at an earlier step. *)
Theorem predecessors_are_settled_earlier set_iter sqrt g start end_ p steps :
  search_run set_iter sqrt g start end_ (p, steps) ->
  ∀ i s, steps !! i = Some s ->
    (current s = start ∨ is_Some (previous s !! current s)) ∧
    ∀ n u, previous s !! n = Some u -> u ∈ map current (take i steps).
Proof.
  intros [H|[pos H]].
  - unfold dijkstra in H. eapply search_pred; [| |eassumption].
    + intros d n k E. injection E as <-. reflexivity.
    + reflexivity.
  - unfold astar in H.
    destruct (heuristic sqrt pos end_ start) as [h|e|] eqn:Eh;
      try (unfold search in H; discriminate).
    eapply search_pred; [| |eassumption].
    + intros d n k. apply heuristic_key.
    + reflexivity.
Qed.

Lemma predecessors_are_settled_earlier_witness :
  ∃ s, run_steps (dijkstra reverse_order heavy_graph "A" "C") !! 2%nat
       = Some s ∧
       (current s = "A" ∨ is_Some (previous s !! current s)).
Proof.
  eexists. split; [vm_compute; reflexivity|].
  refine (proj1 (predecessors_are_settled_earlier reverse_order sqrt_micro
                   heavy_graph "A" "C" _ _ _ 2%nat _ _)).
  - left. vm_compute. reflexivity.
  - vm_compute. reflexivity.
Defined.

(** ** Which requests are answered *)

Lemma reconstruct_acc : ∀ fuel previous cur acc p,
  reconstruct fuel previous cur acc = Return p -> ∃ pre, p = pre ++ acc.
Proof.
  induction fuel as [|fuel IH]; intros previous cur acc p H;
    destruct cur as [c|]; simpl in H.
  - case_bool_decide; [|discriminate]. injection H as <-. exists []. auto.
  - injection H as <-. exists []. auto.
  - case_bool_decide.
    + injection H as <-. exists []. auto.
    + apply IH in H as [pre ->]. exists (pre ++ [c]).
      rewrite <- app_assoc. reflexivity.
  - injection H as <-. exists []. auto.
Qed.

Lemma reconstruct_no_Raise : ∀ fuel previous cur acc e,
  reconstruct fuel previous cur acc ≠ Raise e.
Proof.
  induction fuel as [|fuel IH]; intros previous cur acc e;
    destruct cur as [c|]; simpl; try discriminate.
  - case_bool_decide; discriminate.
  - case_bool_decide; [discriminate | apply IH].
Qed.

Lemma reconstruct_path_Return {key} (node_of : key -> string) adj start dom0
    (st : locals key) end_ :
  sinv node_of adj start dom0 st ->
  ∃ p, reconstruct_path st start end_ = Return p.
Proof.
  intros Hs.
  pose proof (reconstruct_path_finishes _ _ _ _ st end_ Hs) as Hf.
  destruct (reconstruct_path st start end_) as [p|e|] eqn:E;
    [eauto | | contradiction].
  unfold reconstruct_path in E. case_bool_decide; [|discriminate].
  apply reconstruct_no_Raise in E. contradiction.
Qed.

Section Found.
Variable set_iter : list string -> list string.
Context {key : Type}.
Variable key_ltb : key -> key -> bool.
Variable node_of : key -> string.
Variable mk_key : float -> string -> outcome key.
Variable g : Graph.
Variable edges : list Edge.
Variable start : string.
Hypothesis mk_key_node : ∀ d n k, mk_key d n = Return k -> node_of k = n.
Hypothesis mk_key_fuel : ∀ d n, mk_key d n ≠ OutOfFuel.
Hypothesis mk_key_total : ∀ d n,
  n ∈ dom (adj_list g) -> ∃ k, mk_key d n = Return k.
Hypothesis adj_dom :
  dom (adj_list g) = {[start]} ∪ list_to_set (g_nodes g).
Hypothesis adj_sound : ∀ u v w e,
  has_entry (adj_list g) u (v, w, e) -> e ∈ edges ∧ links e u v.
Hypothesis adj_complete : ∀ u v e,
  e ∈ edges -> links e u v -> ∃ w, has_entry (adj_list g) u (v, w, e).
Hypothesis adj_closed : ∀ u v w e,
  has_entry (adj_list g) u (v, w, e) -> v ∈ dom (adj_list g).

(** On a graph whose entries stay among its nodes, from a declared
    [start], the search returns; and it returns a path to [end] when
    [end] has a label and can be reached. *)
Lemma search_result end_ k :
  node_of k = start ->
  ∃ p steps,
    search set_iter key_ltb node_of mk_key g start end_ (Return k)
    = Return (p, steps) ∧
    (reachable edges start end_ -> end_ ≠ "" ->
     p ≠ [] ∧ last p = Some end_).
Proof.
  intros Hk.
  destruct (while_pq_total set_iter key_ltb node_of mk_key g start
              mk_key_node mk_key_fuel mk_key_total adj_closed end_
              (search_fuel (adj_list g))
              (init_locals (g_nodes g) start k)) as [st Hst].
  { apply sinv_init; assumption. }
  { apply init_measure. }
  rewrite (search_eq _ _ _ _ _ _ _ _ _ Hst).
  eapply exhaust_while in Hst as (Hs & Hreach & Hall); try eassumption.
  destruct (reconstruct_path_Return _ _ _ _ st end_ Hs) as [p Hp].
  rewrite Hp. simpl. exists p, (l_steps st). split; [reflexivity|].
  intros Hre He.
  assert (Hend : end_ ∈ l_visited st).
  { destruct (decide (end_ ∈ l_visited st)); auto. }
  destruct (s_vis _ _ _ _ _ Hs _ Hend) as [Hcond _].
  unfold reconstruct_path in Hp.
  rewrite bool_decide_eq_true_2 in Hp by (destruct Hcond; auto).
  cbn [reconstruct] in Hp. rewrite bool_decide_eq_false_2 in Hp by assumption.
  apply reconstruct_acc in Hp as [pre ->].
  split; [destruct pre; discriminate | apply last_snoc].
Qed.

End Found.






(** ** Which requests fail, and how *)

(** X12.  The check of the algorithm name raises status 400 inside the
    [try] block, whose handler turns every exception into status 500: a
    request with an unknown algorithm, its graph built, fails with status
    500, the 400 error being only the text of its detail. *)
Theorem unknown_algorithm_is_status_500 set_iter sqrt request :
  String.eqb (algorithm request) "dijkstra" = false ->
  String.eqb (algorithm request) "astar" = false ->
  forallb (known_endpoints (nodes request)) (edges request) = true ->
  calculate_route set_iter sqrt request
  = Raise (HTTPException 500
             (str (HTTPException 400 (Text "Invalid algorithm")))).
Proof.
  intros Hd Ha Hedges.
  destruct (Graph_init_total _ _ (weightType request) Hedges) as [g HG].
  unfold calculate_route, calculate_route_try, run_algorithm.
  rewrite HG, Hd, Ha. reflexivity.
Qed.

Lemma unknown_algorithm_is_status_500_witness :
  calculate_route reverse_order sqrt_micro no_algorithm
  = Raise (HTTPException 500
             (str (HTTPException 400 (Text "Invalid algorithm")))).
Proof.
  refine (unknown_algorithm_is_status_500 reverse_order sqrt_micro
            no_algorithm _ _ _); reflexivity.
Defined.

(** A search from a label without a neighbour list, to another node:
    the first iteration looks the list up and raises. *)
Lemma search_stray {key} set_iter (key_ltb : key -> key -> bool) node_of
    mk_key g start end_ k :
  node_of k = start -> adj_list g !! start = None -> start ≠ end_ ->
  search set_iter key_ltb node_of mk_key g start end_ (Return k)
  = Raise (KeyError start).
Proof.
  intros Hk Hadj Hne. unfold search, search_fuel.
  cbn [mbind outcome_bind while_pq]. unfold iteration.
  cbn [init_locals l_pq heappop pop_min l_visited].
  rewrite Hk. rewrite bool_decide_eq_false_2 by (intros H; inversion H).
  rewrite bool_decide_eq_false_2 by assumption.
  unfold getitem. rewrite Hadj. reflexivity.
Qed.

(** A search from a node to itself returns after its first iteration. *)
Lemma search_itself {key} set_iter (key_ltb : key -> key -> bool) node_of
    mk_key g start k :
  node_of k = start ->
  ∃ steps,
    search set_iter key_ltb node_of mk_key g start start (Return k)
    = Return (if bool_decide (start = "") then [] else [start], steps).
Proof.
  intros Hk.
  assert (Hst : final_state set_iter key_ltb node_of mk_key g start start k
                  (settled set_iter (init_locals (g_nodes g) start k)
                           start [])).
  { unfold final_state, search_fuel. cbn [while_pq].
    unfold iteration. cbn [init_locals l_pq heappop pop_min l_visited].
    rewrite Hk. rewrite bool_decide_eq_false_2 by (intros H; inversion H).
    rewrite bool_decide_eq_true_2 by reflexivity. reflexivity. }
  rewrite (search_eq _ _ _ _ _ _ _ _ _ Hst).
  unfold reconstruct_path. rewrite bool_decide_eq_true_2 by auto.
  cbn [settled init_locals l_visited l_previous l_steps l_distances
       length app reconstruct].
  case_bool_decide; [eexists; reflexivity|].
  rewrite lookup_empty. eexists. reflexivity.
Qed.

(** X13.  With 'dijkstra', a request is answered with a result exactly
    when every edge joins declared nodes and [start] is a declared node
    or is [end] itself; when the edges are fine and [start] is neither,
    the request fails with status 500 and [KeyError(start)]. *)
Theorem dijkstra_request_is_answered_iff set_iter sqrt request :
  algorithm request = "dijkstra" ->
  ((∃ r, calculate_route set_iter sqrt request = Return r) <->
   forallb (known_endpoints (nodes request)) (edges request) = true ∧
   (start request ∈ nodes request ∨ start request = end_ request)) ∧
  (forallb (known_endpoints (nodes request)) (edges request) = true ->
   start request ∉ nodes request -> start request ≠ end_ request ->
   calculate_route set_iter sqrt request
   = Raise (HTTPException 500 (str (KeyError (start request))))).
Proof.
  intros Halg.
  assert (Hstray : forallb (known_endpoints (nodes request))
                           (edges request) = true ->
                   start request ∉ nodes request ->
                   start request ≠ end_ request ->
                   calculate_route set_iter sqrt request
                   = Raise (HTTPException 500
                              (str (KeyError (start request))))).
  { intros Hedges Hs Hne.
    destruct (Graph_init_total _ _ (weightType request) Hedges) as [g HG].
    destruct (Graph_init_Return _ _ _ _ HG) as (_ & _ & _ & Hdom & _).
    unfold calculate_route, calculate_route_try, run_algorithm.
    rewrite HG, Halg. cbn [mbind outcome_bind String.eqb Ascii.eqb Bool.eqb].
    unfold dijkstra. rewrite search_stray; [reflexivity..| |assumption].
    apply not_elem_of_dom. rewrite Hdom, elem_of_list_to_set. assumption. }
  split; [split|assumption].
  - intros [r Hr].
    assert (Hedges : forallb (known_endpoints (nodes request))
                             (edges request) = true).
    { destruct (forallb _ _) eqn:E; [reflexivity|]. exfalso.
      unfold calculate_route, calculate_route_try in Hr.
      destruct (Graph_init _ _ _) as [g|e|] eqn:HG; try discriminate.
      assert (H : ∃ g, Graph_init (nodes request) (edges request)
                         (weightType request) = Return g) by eauto.
      destruct H as [g' H].
      apply Graph_init_Return in H as (_ & _ & _ & _ & Hends & _).
      assert (forallb (known_endpoints (nodes request)) (edges request)
              = true); [|congruence].
      apply forallb_forall. intros edge Hin. apply list_elem_of_In in Hin.
      destruct (Hends _ Hin). unfold known_endpoints.
      rewrite !bool_decide_eq_true_2 by assumption. reflexivity. }
    split; [assumption|].
    destruct (decide (start request ∈ nodes request)) as [?|Hs]; [auto|].
    destruct (decide (start request = end_ request)) as [?|Hne]; [auto|].
    rewrite (Hstray Hedges Hs Hne) in Hr. discriminate.
  - intros [Hedges Hor].
    destruct (decide (start request = end_ request)) as [Heq|Hne].
    + destruct (Graph_init_total _ _ (weightType request) Hedges) as [g HG].
      unfold calculate_route, calculate_route_try, run_algorithm.
      rewrite HG, Halg, <- Heq.
      cbn [mbind outcome_bind String.eqb Ascii.eqb Bool.eqb].
      unfold dijkstra.
      destruct (search_itself set_iter pair_ltb snd
                  (fun d n => Return (d, n)) g (start request)
                  (Fin 0, start request) eq_refl) as [steps ->].
      cbn [mbind outcome_bind]. case_bool_decide; [eauto|].
      destruct (totals _ _ _ _). eauto.
    + destruct Hor as [Hs|?]; [|contradiction].
      (* a request that is well formed but for its [end] *)
      destruct (Graph_init_total _ _ (weightType request) Hedges) as [g HG].
      destruct (Graph_init_Return _ _ _ _ HG)
        as (Hnodes & _ & _ & Hdom & Hends & Hent).
      unfold calculate_route, calculate_route_try, run_algorithm.
      rewrite HG, Halg.
      cbn [mbind outcome_bind String.eqb Ascii.eqb Bool.eqb].
      unfold dijkstra.
      destruct (search_result set_iter pair_ltb snd
                  (fun d n => Return (d, n)) g (edges request)
                  (start request))
        with (end_ := end_ request) (k := (Fin 0, start request))
        as (p & steps & -> & _); try reflexivity.
      * intros d n k H. injection H as <-. reflexivity.
      * discriminate.
      * eauto.
      * rewrite Hdom, Hnodes. apply set_eq. intros n.
        rewrite elem_of_union, elem_of_singleton, elem_of_list_to_set.
        split; [auto|]. intros [->|?]; assumption.
      * intros u v w e H. apply Hent in H. tauto.
      * intros u v e Hin Hl. eexists. apply Hent. eauto.
      * intros u v w e H. apply Hent in H as (Hin & _ & Hl).
        destruct (Hends e Hin) as [Hf Ht]. rewrite Hdom.
        apply elem_of_list_to_set.
        destruct (links_endpoints _ _ _ Hl) as [-> | ->]; assumption.
      * cbn [mbind outcome_bind]. destruct p; [eauto|].
        destruct (totals _ _ _ _). eauto.
Qed.

Lemma dijkstra_request_is_answered_iff_witness :
  calculate_route reverse_order sqrt_micro stray_start
  = Raise (HTTPException 500 (str (KeyError "A"))).
Proof.
  refine (proj2 (dijkstra_request_is_answered_iff reverse_order sqrt_micro
                   stray_start _) _ _ _).
  - reflexivity.
  - reflexivity.
  - vm_compute. intros H. apply elem_of_cons in H as [H|H];
      [discriminate | inversion H].
  - discriminate.
Defined.

(** ** The exceptions of a search *)

Section Raises.
#[local] Arguments relax : simpl never.
Variable set_iter : list string -> list string.
Context {key : Type}.
Variable key_ltb : key -> key -> bool.
Variable node_of : key -> string.
Variable mk_key : float -> string -> outcome key.
Variable end_ : string.
Hypothesis mk_key_err : ∀ d n e, mk_key d n = Raise e -> ∃ k, e = KeyError k.






End Raises.




Lemma route_to_itself_witness :
  ∃ s, calculate_route reverse_order sqrt_micro loop_request
       = Return (mkResult true ["A"] [s] 0 0) ∧ current s = "A".
Proof.
  refine (route_to_itself reverse_order sqrt_micro loop_request _ _ _ _).
  - reflexivity.
  - reflexivity.
  - discriminate.
  - left. reflexivity.
Defined.

(** ** The order in which [dijkstra] settles *)

Section Sorted.
#[local] Arguments relax : simpl never.
Variable set_iter : list string -> list string.
Context {key : Type}.
Variable key_ltb : key -> key -> bool.
Variable node_of : key -> string.
Variable cost_of : key -> float.
Variable mk_key : float -> string -> outcome key.
Variable adj : gmap string (list adj_entry).
Variable start : string.
Variable dom0 : gset string.
Hypothesis mk_key_node : ∀ d n k, mk_key d n = Return k -> node_of k = n.
Hypothesis mk_key_cost : ∀ d n k, mk_key d n = Return k -> cost_of k = d.
Hypothesis ltb_le : ∀ a b,
  key_ltb a b = true -> fle (cost_of a) (cost_of b).
Hypothesis nltb_le : ∀ a b,
  key_ltb a b = false -> fle (cost_of b) (cost_of a).
Hypothesis nonneg : ∀ u v w e, has_entry adj u (v, w, e) -> 0 <= w.

Lemma sorted_settled (st : locals key) k pq :
  sinv node_of adj start dom0 st ->
  oinv node_of cost_of adj start None [] st ->
  sorted_by_cost st ->
  heappop key_ltb (l_pq st) = Some (k, pq) ->
  node_of k ∉ l_visited st ->
  sorted_by_cost (settled set_iter st (node_of k) pq).
Proof.
  intros Hs Ho Hsorted Hpop Hv.
  assert (Ho' : oinv node_of cost_of adj start (Some (node_of k)) []
                     (settled set_iter st (node_of k) pq))
    by (eapply oinv_settled; eassumption).
  intros l1 u l2 v du dv Hvis Hin Hdu Hdv. simpl in *.
  destruct l2 as [|x l2 _] using rev_ind.
  - apply app_inj_tail in Hvis as [<- <-].
    eapply (o_mono _ _ _ _ _ _ _ Ho' (node_of k) du v dv);
      [reflexivity|assumption| |assumption].
    simpl. apply elem_of_app. auto.
  - rewrite app_comm_cons, app_assoc in Hvis.
    apply app_inj_tail in Hvis as [Hvis _]. eauto.
Qed.

Lemma sorted_while nodes k0 fuel end_ st :
  node_of k0 = start -> cost_of k0 = Fin 0 ->
  dom0 = {[start]} ∪ list_to_set nodes ->
  while_pq set_iter key_ltb node_of mk_key fuel adj end_
           (init_locals nodes start k0) = Return st ->
  sorted_by_cost st.
Proof.
  intros Hk0 Hc0 Hdom H.
  cut (sinv node_of adj start dom0 st ∧ sorted_by_cost st); [tauto|].
  revert H.
  apply (while_pq_rule _ _ _ _ _ _
           (fun st => sinv node_of adj start dom0 st ∧
                      oinv node_of cost_of adj start None [] st ∧
                      sorted_by_cost st)
           (fun st => sinv node_of adj start dom0 st ∧ sorted_by_cost st)).
  - tauto.
  - intros st1 k pq (Hs & Ho & Hsorted) Hpop Hv.
    split; [eapply sinv_skipped; eassumption|].
    split; [eapply oinv_skipped; eassumption|]. exact Hsorted.
  - intros st1 k pq (Hs & Ho & Hsorted) Hpop Hv _.
    split; [eapply sinv_settled; eassumption|].
    eapply sorted_settled; eassumption.
  - intros st1 k pq entries st2 (Hs & Ho & Hsorted) Hpop Hv _ Hadj Hr.
    pose proof (sorted_settled _ _ _ Hs Ho Hsorted Hpop Hv) as Hsorted1.
    pose proof (relax_all_frame _ _ _ _ _ Hr) as (Hvis & _ & Hframe).
    eapply oinv_relax_all with (done := []) (cost_of := cost_of)
      (start := start) (dom0 := dom0) in Hr as [Hs' Ho']; try eassumption.
    + split; [assumption|]. split; [eapply oinv_finish; eassumption|].
      intros l1 u l2 v du dv Hl Hin Hdu Hdv. rewrite Hvis in Hl.
      assert (Hu : u ∈ l_visited (settled set_iter st1 (node_of k) pq)).
      { rewrite Hl. apply elem_of_app. right. left. }
      assert (Hv' : v ∈ l_visited (settled set_iter st1 (node_of k) pq)).
      { rewrite Hl. apply elem_of_app. auto. }
      destruct (Hframe u Hu) as [Eu _]. destruct (Hframe v Hv') as [Ev _].
      rewrite Eu in Hdu. rewrite Ev in Hdv. eauto.
    + eapply sinv_settled; eassumption.
    + simpl. apply elem_of_app. right. left.
    + eapply oinv_settled; eassumption.
  - split; [apply sinv_init; assumption|].
    split; [apply oinv_init; assumption|].
    intros l1 u l2 v du dv Hl. destruct l1; discriminate.
Qed.

End Sorted.

(** What a run of [dijkstra] on a built graph with nonnegative edges
    leaves: tables in which the settled nodes have their least cost and
    are listed by nondecreasing cost, and steps that show these costs. *)
Lemma dijkstra_final set_iter nodes edges weight_type g start end_ p steps :
  forallb nonneg_edge edges = true ->
  Graph_init nodes edges weight_type = Return g ->
  dijkstra set_iter g start end_ = Return (p, steps) ->
  ∃ st : locals (float * string),
    steps = l_steps st ∧
    sinv snd (adj_list g) start ({[start]} ∪ list_to_set (g_nodes g)) st ∧
    tinv set_iter (adj_list g) start
         ({[start]} ∪ list_to_set (g_nodes g)) st ∧
    sorted_by_cost st ∧
    ∀ u du c, u ∈ l_visited st -> l_distances st !! u = Some (Fin du) ->
              walk (adj_list g) start u c -> du <= c.
Proof.
  intros Hnn HG Hd.
  destruct (Graph_init_Return _ _ _ _ HG) as (_ & _ & _ & _ & _ & Hent).
  unfold dijkstra in Hd.
  apply search_Return in Hd as (k & st & Hk & Hfin & _ & ->).
  injection Hk as <-. unfold final_state in Hfin. exists st.
  assert (Hmk : ∀ d n (k : float * string),
            (Return (d, n) : outcome (float * string)) = Return k ->
            k.2 = n).
  { intros d n k H. injection H as <-. reflexivity. }
  assert (Hmc : ∀ d n (k : float * string),
            (Return (d, n) : outcome (float * string)) = Return k ->
            k.1 = d).
  { intros d n k H. injection H as <-. reflexivity. }
  assert (Hw : ∀ u v w e, has_entry (adj_list g) u (v, w, e) -> 0 <= w).
  { intros u v w e H. apply Hent in H as (Hin & -> & _).
    apply _get_weight_nonneg. rewrite forallb_forall in Hnn.
    apply Hnn, list_elem_of_In. assumption. }
  pose proof Hfin as H1. pose proof Hfin as H2.
  eapply invs_while in Hfin as [Hs Ht]; [|exact Hmk|reflexivity..].
  eapply (optimal_while set_iter pair_ltb snd fst) in H1
    as (_ & Hopt & _);
    [|exact Hmk|exact Hmc|apply pair_ltb_le|apply pair_nltb_le|exact Hw
     |reflexivity..].
  eapply (sorted_while set_iter pair_ltb snd fst) in H2;
    [|exact Hmk|exact Hmc|apply pair_ltb_le|apply pair_nltb_le|exact Hw
     |reflexivity..].
  auto.
Qed.

(** The cost that step [i] shows for its current node is its cost in the
    final tables. *)
Lemma step_cost {key} (node_of : key -> string) set_iter adj start dom0
    (st : locals key) i s :
  sinv node_of adj start dom0 st -> tinv set_iter adj start dom0 st ->
  l_steps st !! i = Some s ->
  l_visited st !! i = Some (current s) ∧
  ∃ d, l_distances st !! current s = Some (Fin d) ∧
       distances s !! current s = Some (Fin d).
Proof.
  intros Hs Ht Hi.
  assert (Hv : l_visited st !! i = Some (current s)).
  { rewrite <- (s_steps _ _ _ _ _ Hs).
    change (map current (l_steps st)) with (current <$> l_steps st).
    rewrite list_lookup_fmap, Hi. reflexivity. }
  split; [assumption|].
  assert (Hin : current s ∈ l_visited st)
    by (eapply list_elem_of_lookup_2; eassumption).
  destruct (s_vis _ _ _ _ _ Hs _ Hin) as [_ [d Hd]].
  exists d. split; [assumption|].
  destruct (t_now _ _ _ _ _ Ht i s Hi) as [_ Hst].
  rewrite Hst, Hd; [reflexivity|].
  apply (list_elem_of_lookup_2 _ i). apply lookup_take_Some.
  split; [assumption | lia].
Qed.



(** X16.  [dijkstra], on a built graph with nonnegative edges, settles
    the nodes by nondecreasing cost: the cost that a step shows for its
    current node is at most the one that any later step shows for its
    own. *)
Theorem nodes_settle_in_cost_order set_iter nodes edges weight_type g
    start end_ p steps :
  forallb nonneg_edge edges = true ->
  Graph_init nodes edges weight_type = Return g ->
  dijkstra set_iter g start end_ = Return (p, steps) ->
  ∀ i j s s', (i < j)%nat -> steps !! i = Some s -> steps !! j = Some s' ->
    ∃ a b, distances s !! current s = Some (Fin a) ∧
           distances s' !! current s' = Some (Fin b) ∧ a <= b.
Proof.
  intros Hnn HG Hd i j s s' Hij Hi Hj.
  destruct (dijkstra_final _ _ _ _ _ _ _ _ _ Hnn HG Hd)
    as (st & -> & Hsinv & Htinv & Hsorted & _).
  destruct (step_cost _ _ _ _ _ _ _ _ Hsinv Htinv Hi)
    as (Hvi & a & Ha1 & Ha2).
  destruct (step_cost _ _ _ _ _ _ _ _ Hsinv Htinv Hj)
    as (Hvj & b & Hb1 & Hb2).
  exists a, b. split; [assumption|]. split; [assumption|].
  pose proof (take_drop_middle _ _ _ Hvj) as Hsplit.
  eapply (Hsorted (take j (l_visited st)) (current s')
                  (drop (S j) (l_visited st)) (current s));
    [symmetry; exact Hsplit| |assumption..].
  apply (list_elem_of_lookup_2 _ i). apply lookup_take_Some.
  split; [assumption | lia].
Qed.

Lemma nodes_settle_in_cost_order_witness :
  ∃ s s' a b,
    run_steps (dijkstra reverse_order heavy_graph "A" "C") !! 1%nat
    = Some s ∧
    run_steps (dijkstra reverse_order heavy_graph "A" "C") !! 2%nat
    = Some s' ∧
    distances s !! current s = Some (Fin a) ∧
    distances s' !! current s' = Some (Fin b) ∧ a <= b.
Proof.
  assert (Hs : ∃ s, run_steps (dijkstra reverse_order heavy_graph "A" "C")
                    !! 1%nat = Some s)
    by (eexists; vm_compute; reflexivity).
  assert (Hs' : ∃ s, run_steps (dijkstra reverse_order heavy_graph "A" "C")
                     !! 2%nat = Some s)
    by (eexists; vm_compute; reflexivity).
  destruct Hs as [s Hs]. destruct Hs' as [s' Hs'].
  destruct (nodes_settle_in_cost_order reverse_order ["A"; "B"; "C"]
              [mkEdge "A" "B" 2000000 0; mkEdge "B" "C" 1 0] "distance"
              heavy_graph "A" "C" ["A"; "B"; "C"]
              (run_steps (dijkstra reverse_order heavy_graph "A" "C"))
              eq_refl)
    with (i := 1%nat) (j := 2%nat) (s := s) (s' := s')
    as (a & b & Ha & Hb & Hab).
  - vm_compute. reflexivity.
  - vm_compute. reflexivity.
  - lia.
  - exact Hs.
  - exact Hs'.
  - exists s, s', a, b. auto.
Defined.

(** ** [astar] against [dijkstra] *)

(** The path of a run that begins at [start] is a route to [end] whose
    weight is the cost that the last step shows for [end]. *)
Lemma run_route_cost set_iter sqrt nodes edges weight_type g start end_
    p steps :
  Graph_init nodes edges weight_type = Return g ->
  search_run set_iter sqrt g start end_ (p, steps) ->
  head p = Some start ->
  ∃ c s d,
    route edges weight_type p c ∧ last p = Some end_ ∧
    last steps = Some s ∧ current s = end_ ∧
    distances s !! end_ = Some (Fin d) ∧ c == d.
Proof.
  intros HG Hrun Hhd.
  destruct (Graph_init_Return _ _ _ _ HG) as (_ & _ & _ & _ & _ & Hent).
  apply search_run_tables in Hrun as (dist & prev & vis & T).
  assert (Hp : p ≠ []) by (intros ->; discriminate).
  destruct (tables_path _ _ _ _ _ _ _ _ _ T) as (_ & _ & Hne & _).
  destruct (Hne Hp) as (He & Hin & Hlast).
  destruct (tables_last_step _ _ _ _ _ _ _ _ _ T Hin)
    as (vis0 & steps0 & _ & _ & Hsteps).
  destruct (k_vis _ _ _ _ _ _ _ _ _ T _ Hin) as [Hcond [de Hde]].
  pose proof (k_path _ _ _ _ _ _ _ _ _ T) as Hrec.
  rewrite bool_decide_eq_true_2 in Hrec by (destruct Hcond; auto).
  eapply (tables_route _ _ _ _ _ _ _ _ _ T edges weight_type de) in Hrec
    as (c & Hroute & Hc); try eassumption.
  - exists c, (snapshot set_iter end_ vis dist prev), de.
    split; [assumption|]. split; [assumption|].
    split; [rewrite Hsteps; apply last_snoc|].
    split; [reflexivity|]. split; [|assumption].
    simpl. rewrite lookup_fmap, Hde. reflexivity.
  - intros u v w e H. apply Hent in H. assumption.
  - constructor.
  - lra.
  - intros y rest H. discriminate.
Qed.

(** X17.  On a built graph with nonnegative edges, when [dijkstra] and
    [astar], whatever the positions, both return a path that begins at
    [start], the cost that the last step of [dijkstra] shows for [end] is
    at most the one that the last step of [astar] shows: the heuristic
    never makes the route lighter. *)
Theorem astar_is_no_cheaper set_iter sqrt nodes edges weight_type g
    start end_ node_positions p steps p' steps' :
  forallb nonneg_edge edges = true ->
  Graph_init nodes edges weight_type = Return g ->
  dijkstra set_iter g start end_ = Return (p, steps) ->
  astar set_iter sqrt g start end_ node_positions = Return (p', steps') ->
  head p = Some start -> head p' = Some start ->
  ∃ s s' d d',
    last steps = Some s ∧ last steps' = Some s' ∧
    distances s !! end_ = Some (Fin d) ∧
    distances s' !! end_ = Some (Fin d') ∧ d <= d'.
Proof.
  intros Hnn HG Hd Ha Hhd Hhd'.
  destruct (Graph_init_Return _ _ _ _ HG) as (_ & _ & _ & _ & _ & Hent).
  destruct (run_route_cost set_iter sqrt nodes edges weight_type g start
              end_ p steps HG) as (c & s & d & _ & _ & Hs & Hcur & Hds & _);
    [left; assumption | assumption |].
  destruct (run_route_cost set_iter sqrt nodes edges weight_type g start
              end_ p' steps' HG)
    as (c' & s' & d' & Hr' & Hlast' & Hs' & _ & Hds' & Hc');
    [right; eexists; eassumption | assumption |].
  exists s, s', d, d'. repeat (split; [assumption|]).
  destruct (dijkstra_final _ _ _ _ _ _ _ _ _ Hnn HG Hd)
    as (st & -> & Hsinv & Htinv & _ & Hopt).
  assert (Hi : ∃ i, l_steps st !! i = Some s).
  { apply list_elem_of_lookup. rewrite last_Some in Hs.
    destruct Hs as [l ->]. apply elem_of_app. right. left. }
  destruct Hi as [i Hi].
  destruct (step_cost _ _ _ _ _ _ _ _ Hsinv Htinv Hi)
    as (Hv & d0 & Hd1 & Hd2).
  rewrite Hcur in *. rewrite Hds in Hd2. injection Hd2 as <-.
  destruct (route_walk (adj_list g) start edges weight_type) with
    (p := p') (c := c') (u := start) (c0 := 0)
    as (v & c'' & Hv' & Hw & Hc''); try assumption.
  - intros u v e Hin Hl. apply Hent. auto.
  - constructor.
  - rewrite Hlast' in Hv'. injection Hv' as <-.
    assert (Hin : end_ ∈ l_visited st)
      by (eapply list_elem_of_lookup_2; eassumption).
    pose proof (Hopt _ _ _ Hin Hd1 Hw). lra.
Qed.

Lemma astar_is_no_cheaper_witness :
  ∃ s s' d d',
    last (run_steps (dijkstra reverse_order
                       (built (nodes square) (edges square) "distance")
                       "A" "D")) = Some s ∧
    last (run_steps (astar reverse_order sqrt_micro
                       (built (nodes square) (edges square) "distance")
                       "A" "D" (nodePositions placed_square))) = Some s' ∧
    distances s !! "D" = Some (Fin d) ∧
    distances s' !! "D" = Some (Fin d') ∧ d <= d'.
Proof.
  refine (astar_is_no_cheaper reverse_order sqrt_micro (nodes square)
            (edges square) "distance" _ "A" "D"
            (nodePositions placed_square)
            ["A"; "B"; "C"; "D"] _ ["A"; "B"; "C"; "D"] _ _ _ _ _ _ _).
  - reflexivity.
  - vm_compute. reflexivity.
  - vm_compute. reflexivity.
  - vm_compute. reflexivity.
  - reflexivity.
  - reflexivity.
Defined.

(** ** The totals of the answer *)









(** ** The route history *)

Lemma add_route_take now route h :
  (length h <= 50)%nat ->
  add_route now route h = take 50 (stamp now route :: h).
Proof.
  intros Hlen. unfold add_route. cbn zeta.
  destruct (50 <? length (stamp now route :: h))%nat eqn:E.
  - apply Nat.ltb_lt in E. simpl in E.
    rewrite removelast_firstn_len. f_equal. simpl. lia.
  - apply Nat.ltb_ge in E. symmetry. apply take_ge. exact E.
Qed.

Lemma take_cons_take {A} (x : A) n l :
  take (S n) (x :: take (S n) l) = take (S n) (x :: l).
Proof.
  simpl. f_equal. rewrite take_take. f_equal. lia.
Qed.

(** X19.  After any sequence of [add_route] and [clear_history], from the
    empty history of the start of the process, the history holds the 50
    newest of the entries added since the last clear, the newest first,
    each with the time of its addition. *)
Theorem history_keeps_newest_fifty calls :
  get_history (history_after calls) = take 50 (log_after calls).
Proof.
  unfold get_history, history_after, log_after.
  induction calls as [|call calls IH] using rev_ind; [reflexivity|].
  rewrite !fold_left_app. simpl. rewrite IH.
  destruct call as [now route|]; simpl; [|reflexivity].
  rewrite add_route_take by (rewrite length_take; lia).
  apply take_cons_take.
Qed.
